(** * A caching HTTP/1.0 forward proxy: shallow embedding of [server.cpp]

    The development follows the source file top to bottom: the date
    utility ([parseHTTPDate], [checkIfTimePassed]), the message codec
    ([parseHTTPrequest], [parseHTTPresponse], [parseHTTPBody]), the origin
    connector ([connectToServer], [sendIfModifiedSinceRequest]), the cache
    front end ([handleCache]) and the body of the readiness loop of [main].

    Strings are [string] (a [std::string] may hold any byte, NUL included),
    C integers are [Z], sizes and positions are [nat].  Everything the
    program obtains from its platform (C library, clock, network, stack
    contents) is a field of the class [Platform]; the program text is a
    function of it. *)

From Stdlib Require Import ZArith List String Ascii Bool Lia.
Import ListNotations.
Open Scope string_scope.

(* ------------------------------------------------------------------ *)
(** * Characters, C strings and [std::string] operations *)

Definition NUL : ascii := "000"%char.
Definition HT : ascii := "009"%char.
Definition LF : ascii := "010"%char.
Definition VT : ascii := "011"%char.
Definition FF : ascii := "012"%char.
Definition CR : ascii := "013"%char.

(** The two bytes written [\r\n] in the source. *)
Definition CRLF : string := String CR (String LF EmptyString).

(** [std::string::empty]. *)
Definition empty (s : string) : bool :=
  match s with EmptyString => true | String _ _ => false end.

(** What a [const char*] consumer ([%s], [std::string(const char* )]) sees
    of a byte sequence: everything before the first NUL. *)
Fixpoint c_str (s : string) : string :=
  match s with
  | EmptyString => EmptyString
  | String c s' => if Ascii.eqb c NUL then EmptyString else String c (c_str s')
  end.

Fixpoint take (n : nat) (s : string) : string :=
  match n, s with
  | S n', String c s' => String c (take n' s')
  | _, _ => EmptyString
  end.

Fixpoint drop (n : nat) (s : string) : string :=
  match n, s with
  | S n', String _ s' => drop n' s'
  | _, _ => s
  end.

Fixpoint starts_with (pat s : string) : bool :=
  match pat, s with
  | EmptyString, _ => true
  | String a pat', String b s' => Ascii.eqb a b && starts_with pat' s'
  | String _ _, EmptyString => false
  end.

(** [std::string::find(pat)]: position of the first occurrence, [None] for
    [npos]. *)
Fixpoint find (pat s : string) : option nat :=
  if starts_with pat s then Some 0
  else match s with
       | EmptyString => None
       | String _ s' => option_map S (find pat s')
       end.

(** C++ exceptions that occur in the program. *)
Inductive exn : Type :=
| runtime_error (what : string)
| out_of_range (what : string).

Inductive outcome (A : Type) : Type :=
| Returns (a : A)
| Throws (e : exn).
Arguments Returns {A} a.
Arguments Throws {A} e.

(** [std::string::substr(pos)]: throws [out_of_range] iff [pos > size()]. *)
Definition substr (s : string) (pos : nat) : outcome string :=
  if (length s <? pos)%nat then Throws (out_of_range "basic_string::substr")
  else Returns (drop pos s).

(** Expansion of a [printf] format whose only conversion is [%s]; the
    arguments are the C strings passed. *)
Fixpoint format (fmt : string) (args : list string) : string :=
  match fmt with
  | EmptyString => EmptyString
  | String c fmt' =>
      match fmt' with
      | String d fmt'' =>
          if Ascii.eqb c "%" && Ascii.eqb d "s" then
            match args with
            | a :: args' => a ++ format fmt'' args'
            | [] => format fmt'' []
            end
          else String c (format fmt' args)
      | EmptyString => String c EmptyString
      end
  end.

(** [snprintf(buf, size, fmt, ...)]: the C string left in [buf], at most
    [size - 1] characters of the expansion. *)
Definition snprintf (size : nat) (fmt : string) (args : list string) : string :=
  take (size - 1) (format fmt (map c_str args)).

(* ------------------------------------------------------------------ *)
(** * The fragment of ECMAScript regular expressions the program uses

    Sequences of single-character matchers, greedy [*] and [+] over a
    character class, the anchor [^] and capture groups that are not
    nested.  Matching is by backtracking, leftmost start first, each
    quantifier taking as much as it can. *)

Inductive regex_item : Type :=
| RBol                              (* ^ *)
| RClass (cls : ascii -> bool)      (* one character of a class *)
| RStar (cls : ascii -> bool)       (* greedy cls* *)
| RGroupOpen                        (* ( *)
| RGroupClose.                      (* ) *)

Definition regex := list regex_item.

(** [\s] in the "C" locale, [\S], and [.] (anything but a line terminator). *)
Definition is_space (c : ascii) : bool :=
  Ascii.eqb c " " || Ascii.eqb c HT || Ascii.eqb c LF
  || Ascii.eqb c VT || Ascii.eqb c FF || Ascii.eqb c CR.
Definition non_space (c : ascii) : bool := negb (is_space c).
Definition any_char (c : ascii) : bool := negb (Ascii.eqb c LF || Ascii.eqb c CR).

Fixpoint lit (s : string) : regex :=
  match s with
  | EmptyString => []
  | String c s' => RClass (Ascii.eqb c) :: lit s'
  end.

Definition plus (cls : ascii -> bool) : regex := [RClass cls; RStar cls].

Definition push (c : ascii) (cur : option string) : option string :=
  option_map (fun b => b ++ String c EmptyString) cur.

(** [match_here re s bol caps cur]: match [re] at the head of [s]; [bol]
    tells whether the head of [s] is the beginning of the subject, [caps]
    are the groups closed so far, [cur] the text of the open group. *)
Fixpoint match_here (re : regex) (s : string) (bol : bool)
         (caps : list string) (cur : option string) : option (list string) :=
  match re with
  | [] => Some caps
  | RBol :: re' => if bol then match_here re' s bol caps cur else None
  | RClass cls :: re' =>
      match s with
      | String c s' => if cls c then match_here re' s' false caps (push c cur) else None
      | EmptyString => None
      end
  | RStar cls :: re' =>
      (fix star (s : string) (bol : bool) (cur : option string) {struct s}
         : option (list string) :=
         match s with
         | String c s' =>
             if cls c then
               match star s' false (push c cur) with
               | Some r => Some r
               | None => match_here re' s bol caps cur
               end
             else match_here re' s bol caps cur
         | EmptyString => match_here re' s bol caps cur
         end) s bol cur
  | RGroupOpen :: re' => match_here re' s bol caps (Some EmptyString)
  | RGroupClose :: re' =>
      match cur with
      | Some b => match_here re' s bol (caps ++ [b]) None
      | None => match_here re' s bol caps None
      end
  end.

Fixpoint search_from (re : regex) (s : string) (bol : bool) : option (list string) :=
  match match_here re s bol [] None with
  | Some caps => Some caps
  | None =>
      match s with
      | EmptyString => None
      | String _ s' => search_from re s' false
      end
  end.

(** [std::regex_search(s, m, re)]: [Some] of the capture groups of the
    leftmost match, [None] when the function returns false. *)
Definition regex_search (s : string) (re : regex) : option (list string) :=
  search_from re s true.

(** [m.str(n)] for [n >= 1]. *)
Definition str (m : list string) (n : nat) : string := nth (n - 1) m EmptyString.

(* ------------------------------------------------------------------ *)
(** * Declarations of [httpUtils.h] *)

Module http.

(** Modelled from the spec: the enumeration [retDateParse] of
    [httpUtils.h]; its three values are the ones [server.cpp] names. *)
Inductive retDateParse : Type :=
| SUCCESS
| TIME_UNIT_PASSED
| FAILURE_TO_PARSE.

Definition retDateParse_eqb (a b : retDateParse) : bool :=
  match a, b with
  | SUCCESS, SUCCESS => true
  | TIME_UNIT_PASSED, TIME_UNIT_PASSED => true
  | FAILURE_TO_PARSE, FAILURE_TO_PARSE => true
  | _, _ => false
  end.

(** Modelled from the spec: the struct [httpHeader] of [httpUtils.h]
    (the spec's CacheEntry), with the six fields [server.cpp] reads and
    writes. *)
Record httpHeader : Type := mkHeader {
  hostName : string;
  filePath : string;
  lastAccessTime : string;
  lastModified : string;
  expires : string;
  body : string
}.

(** A default-constructed [httpHeader]. *)
Definition httpHeader_default : httpHeader :=
  mkHeader EmptyString EmptyString EmptyString EmptyString EmptyString EmptyString.

(** Modelled from the spec: the class [LRUCache] of [httpUtils.h].  A
    mapping from key to entry with a strict recency order, bounded by
    [capacity]; [order] lists the resident keys with their entries, most
    recently used first. *)
Record LRUCache : Type := mkLRUCache {
  capacity : nat;
  order : list (string * httpHeader)
}.

Definition LRUCache_new (capacity : nat) : LRUCache := mkLRUCache capacity [].

Fixpoint lookup (key : string) (l : list (string * httpHeader)) : option httpHeader :=
  match l with
  | [] => None
  | (k, e) :: l' => if String.eqb k key then Some e else lookup key l'
  end.

Fixpoint remove_key (key : string) (l : list (string * httpHeader))
  : list (string * httpHeader) :=
  match l with
  | [] => []
  | (k, e) :: l' => if String.eqb k key then remove_key key l' else (k, e) :: remove_key key l'
  end.

Definition keys (c : LRUCache) : list string := map fst (order c).
Definition size (c : LRUCache) : nat := List.length (order c).
Definition contains (key : string) (c : LRUCache) : bool :=
  match lookup key (order c) with Some _ => true | None => false end.
Definition most_recent (c : LRUCache) : option string := hd_error (keys c).
Definition least_recent (c : LRUCache) : option string :=
  match keys c with [] => None | k :: ks => Some (last ks k) end.

(** Modelled from the spec: [fetch(key) -> CacheEntry | Miss] returns the
    entry and promotes it to most-recently-used, or signals Miss without
    side effects if absent ([server.cpp] catches the miss as a
    [std::runtime_error]). *)
Definition fetch (key : string) (c : LRUCache) : outcome httpHeader * LRUCache :=
  match lookup key (order c) with
  | Some e => (Returns e, mkLRUCache (capacity c) ((key, e) :: remove_key key (order c)))
  | None => (Throws (runtime_error "Key not found in cache"), c)
  end.

(** Modelled from the spec: [add(key, entry)] inserts or overwrites the
    entry for [key] and promotes it to most-recently-used; if this
    insertion pushes size past [capacity], the current least-recently-used
    key is evicted.  [add] never fails. *)
Definition add (key : string) (e : httpHeader) (c : LRUCache) : LRUCache :=
  let inserted := (key, e) :: remove_key key (order c) in
  if (capacity c <? List.length inserted)%nat
  then mkLRUCache (capacity c) (removelast inserted)
  else mkLRUCache (capacity c) inserted.

End http.

Import http.

(* ------------------------------------------------------------------ *)
(** * The platform the program runs on *)

(** [struct tm]. *)
Record tm : Type := mkTm {
  tm_sec : Z; tm_min : Z; tm_hour : Z;
  tm_mday : Z; tm_mon : Z; tm_year : Z;
  tm_wday : Z; tm_yday : Z; tm_isdst : Z
}.

Definition set_tm_isdst (t : tm) (v : Z) : tm :=
  mkTm (tm_sec t) (tm_min t) (tm_hour t) (tm_mday t) (tm_mon t) (tm_year t)
       (tm_wday t) (tm_yday t) v.

(** One candidate address of [getaddrinfo]'s result list, with what the
    platform answers for it: the value of [socket(...)] and the value of
    [connect(...)] on that socket. *)
Record addrinfo : Type := mkAddrinfo {
  ai_socket : Z;
  ai_connect : Z
}.

Class Platform : Type := {
  (** [ss >> std::get_time(&tm, fmt)] on a stream holding the text:
      [None] when [ss.fail()], else the filled [tm]. *)
  get_time : string -> string -> option tm;
  (** [timegm(&tm)]. *)
  timegm : tm -> Z;
  (** The value of the [n]-th call of [time(nullptr)]. *)
  time : nat -> Z;
  (** [getaddrinfo(host, port, ...)]: status and candidate list. *)
  getaddrinfo : string -> string -> Z * list addrinfo;
  (** Return value of [send(fd, buf, len, 0)]. *)
  send : Z -> string -> Z;
  (** The data of the successive [recv] calls on [fd] after the bytes given
      were sent on it; after the last one [recv] returns 0 or -1.  The
      source sets no timeout, and a peer that neither sends nor closes
      keeps [recv] from returning: such a run has no list here, so what is
      proved of the receive loops is proved of the runs in which the peer
      ends its reply. *)
  recv : Z -> string -> list string;
  (** Indeterminate content of the stack bytes a [char] array is laid over. *)
  stack_byte : nat -> ascii
}.

(* ------------------------------------------------------------------ *)
(** * Program state, observable events and the monad of the program *)

(** [EvConnect] stands for one whole call of [connectToServer]: the
    [socket], [connect] and [close] calls it makes on the candidate
    addresses (a socket whose [connect] failed is closed inside it) are not
    recorded one by one.  [EvClose] therefore records the [close] calls of
    [main] only. *)
Inductive event : Type :=
| EvConnect (hostName : string) (sockFd : Z)   (* connectToServer and its result *)
| EvSend (fd : Z) (bytes : string)             (* send(fd, ...) *)
| EvClose (fd : Z)                             (* close(fd) *)
| EvCacheFetch (key : string)                  (* cache->fetch(key) *)
| EvCacheAdd (key : string) (e : httpHeader).  (* cache->add(key, e) *)

Record St : Type := mkSt {
  cache : LRUCache;        (* the object [cache] of [main] points to *)
  trace : list event;      (* events so far, oldest first *)
  ticks : nat              (* number of calls of [time] so far *)
}.

(** A computation runs on a state and either returns a value or throws. *)
Definition M (A : Type) : Type := St -> outcome A * St.

Definition ret {A : Type} (a : A) : M A := fun st => (Returns a, st).
Definition throw {A : Type} (e : exn) : M A := fun st => (Throws e, st).
Definition bind {A B : Type} (m : M A) (k : A -> M B) : M B :=
  fun st =>
    match m st with
    | (Returns a, st') => k a st'
    | (Throws e, st') => (Throws e, st')
    end.

(** [try { m } catch (const std::runtime_error&) { h }]. *)
Definition catch_runtime_error {A : Type} (m : M A) (h : string -> M A) : M A :=
  fun st =>
    match m st with
    | (Throws (runtime_error what), st') => h what st'
    | r => r
    end.

Declare Scope prog_scope.
Delimit Scope prog_scope with prog.
Notation "x <- c ;; k" := (bind c (fun x => k))
  (at level 61, c at next level, right associativity) : prog_scope.
Notation "c ;;; k" := (bind c (fun _ => k))
  (at level 61, right associativity) : prog_scope.
Open Scope prog_scope.

Definition emit (e : event) : M unit :=
  fun st => (Returns tt, mkSt (cache st) (trace st ++ [e]) (ticks st)).

Definition cache_fetch (key : string) : M httpHeader :=
  fun st =>
    let (r, c) := fetch key (cache st) in
    (r, mkSt c (trace st ++ [EvCacheFetch key]) (ticks st)).

Definition cache_add (key : string) (e : httpHeader) : M unit :=
  fun st =>
    (Returns tt, mkSt (add key e (cache st)) (trace st ++ [EvCacheAdd key e]) (ticks st)).

Definition close (fd : Z) : M unit := emit (EvClose fd).

(** Early [return] out of the middle of a function body: [inl] carries the
    value returned, [inr] the values the rest of the body goes on with. *)
Definition returned {A B : Type} (a : A) : M (A + B) := ret (inl a).
Definition proceed {A B : Type} (b : B) : M (A + B) := ret (inr b).

Section Program.

Context {P : Platform}.

Definition time_nullptr : M Z :=
  fun st => (Returns (time (ticks st)), mkSt (cache st) (trace st) (S (ticks st))).

Definition send_ (fd : Z) (bytes : string) : M Z :=
  emit (EvSend fd bytes) ;;; ret (send fd bytes).

Fixpoint stack_fill (from n : nat) : string :=
  match n with
  | O => EmptyString
  | S n' => String (stack_byte from) (stack_fill (S from) n')
  end.

(** The [size] bytes of a [char buf[size]] after [snprintf] left the C
    string [s] in it: [s], its terminator, and whatever the stack held. *)
Definition char_array (size : nat) (s : string) : string :=
  s ++ String NUL (stack_fill (S (length s)) (size - 1 - length s)).

Definition MAX_CONNECTIONS : Z := 100.
Definition BUFFER_SIZE : nat := 4096.

(* ------------------------------------------------------------------ *)
(** * Date utility *)

Definition parseHTTPDate (httpDate : string) : M Z :=
  match get_time "%a, %d %b %Y %H:%M:%S" httpDate with
  | None => throw (runtime_error "Failed to parse date!")
  | Some t => ret (timegm (set_tm_isdst t (-1)))
  end.

Definition checkIfTimePassed (httpTime : string) : M retDateParse :=
  r <- catch_runtime_error
         (checkTime <- parseHTTPDate httpTime ;; proceed checkTime)
         (fun _ => returned FAILURE_TO_PARSE) ;;
  match r with
  | inl v => ret v
  | inr checkTime =>
      currentTime <- time_nullptr ;;
      if (checkTime <=? currentTime)%Z then ret TIME_UNIT_PASSED
      else ret SUCCESS
  end.

(* ------------------------------------------------------------------ *)
(** * Message codec *)

(** The pattern [^GET\s+(\S+)\s+HTTP\/1\.0\r\nHost:\s*(\S+)\r\n]. *)
Definition regHTTP : regex :=
  ([RBol] ++ lit "GET" ++ plus is_space
   ++ [RGroupOpen] ++ plus non_space ++ [RGroupClose]
   ++ plus is_space ++ lit "HTTP/1.0" ++ lit CRLF
   ++ lit "Host:" ++ [RStar is_space]
   ++ [RGroupOpen] ++ plus non_space ++ [RGroupClose] ++ lit CRLF)%list.

(** The result is the returned [bool] and the caller's [path] and
    [hostName] after the call (both are reference parameters). *)
Definition parseHTTPrequest (getRequest path hostName : string)
  : bool * string * string :=
  match regex_search getRequest regHTTP with
  | None => (false, path, hostName)
  | Some matches => (true, c_str (str matches 1), c_str (str matches 2))
  end.

(** The patterns [Date:\s*], [Last-Modified:\s*] and [Expires:\s*], each
    followed by one group holding a greedy [.] star and by [\r\n]. *)
Definition regDate : regex :=
  (lit "Date:" ++ [RStar is_space; RGroupOpen; RStar any_char; RGroupClose] ++ lit CRLF)%list.
Definition regLastModified : regex :=
  (lit "Last-Modified:" ++ [RStar is_space; RGroupOpen; RStar any_char; RGroupClose] ++ lit CRLF)%list.
Definition regExpires : regex :=
  (lit "Expires:" ++ [RStar is_space; RGroupOpen; RStar any_char; RGroupClose] ++ lit CRLF)%list.

(** The value of the function's own variable [lastModified] when
    [parseHTTPresponse] returns. *)
Definition parseHTTPresponse_local_lastModified
  (httpResponse lastModified : string) : string :=
  match regex_search httpResponse regLastModified with
  | Some m => c_str (str m 1)
  | None => lastModified
  end.

(** The result is the caller's [date], [lastModified] and [expires] after
    the call.  [date] and [expires] are reference parameters;
    [lastModified] is passed by value, so the assignment to it changes the
    function's copy ([parseHTTPresponse_local_lastModified]) and the
    caller's string is what it was. *)
Definition parseHTTPresponse (httpResponse date lastModified expires : string)
  : string * string * string :=
  let date :=
    match regex_search httpResponse regDate with
    | Some m => c_str (str m 1)
    | None => date
    end in
  let _local := parseHTTPresponse_local_lastModified httpResponse lastModified in
  let expires :=
    match regex_search httpResponse regExpires with
    | Some m => c_str (str m 1)
    | None => expires
    end in
  (date, lastModified, expires).

Definition separator : string := CRLF ++ CRLF.

(** Which of the three [return] statements of [parseHTTPBody] is taken. *)
Inductive body_exit : Type :=
| NoSeparator
| CaughtOutOfRange
| BodyFound.

Definition parseHTTPBody_exit (httpResponse : string) : body_exit * string :=
  match find separator httpResponse with
  | None => (NoSeparator, EmptyString)
  | Some endOfHeader =>
      match substr httpResponse (endOfHeader + 4) with
      | Returns httpBody => (BodyFound, httpBody)
      | Throws _ => (CaughtOutOfRange, EmptyString)   (* only out_of_range is thrown *)
      end
  end.

Definition parseHTTPBody (httpResponse : string) : string :=
  snd (parseHTTPBody_exit httpResponse).

(* ------------------------------------------------------------------ *)
(** * Origin connector *)

(** The loop over the candidate addresses; -1 when [p == NULL] at its end. *)
Fixpoint try_addresses (server_info : list addrinfo) : Z :=
  match server_info with
  | [] => (-1)%Z
  | p :: next =>
      if (ai_socket p =? -1)%Z then try_addresses next
      else if (ai_connect p =? -1)%Z then try_addresses next
      else ai_socket p
  end.

Definition connectToServer (hostName port : string) : M Z :=
  let (status, server_info) := getaddrinfo hostName port in
  let sockFd := if negb (status =? 0)%Z then (-1)%Z else try_addresses server_info in
  emit (EvConnect hostName sockFd) ;;; ret sockFd.

(** The [while ((bytesReceived = recv(...)) > 0)] loop, run over the data
    the platform delivers. *)
Fixpoint recv_loop (chunks : list string) (responseBuffer : string) : string :=
  match chunks with
  | [] => responseBuffer
  | buffer :: rest =>
      if (0 <? length buffer)%nat then recv_loop rest (responseBuffer ++ c_str buffer)
      else responseBuffer
  end.

Definition ifModReq_format : string :=
  "GET %s HTTP/1.0" ++ CRLF ++ "Host: %s" ++ CRLF ++ CRLF
  ++ "If-Modified-Since: %s" ++ CRLF ++ CRLF.

(** The C string [snprintf] leaves in [ifModReq]. *)
Definition ifModReq (date : string) (header : httpHeader) : string :=
  snprintf 256 ifModReq_format [filePath header; hostName header; date].

Definition sendIfModifiedSinceRequest (date : string) (header : httpHeader) : M string :=
  newSockFd <- connectToServer (hostName header) "80" ;;
  if (newSockFd =? -1)%Z then ret EmptyString
  else
    let buf := char_array 256 (ifModReq date header) in
    r <- send_ newSockFd buf ;;
    if (r =? -1)%Z then ret EmptyString
    else ret (recv_loop (recv newSockFd buf) EmptyString).

(* ------------------------------------------------------------------ *)
(** * Cache front end *)

(** The body of the [switch (priority)]: the new values of [exitLoop] and
    [requestDate]. *)
Definition cascade_switch (priority : Z) (header : httpHeader)
           (exitLoop : bool) (requestDate : string) : M (bool * string) :=
  if (priority =? 1)%Z then
    v <- checkIfTimePassed (expires header) ;;
    if retDateParse_eqb v SUCCESS then ret (true, expires header)
    else ret (exitLoop, requestDate)
  else if (priority =? 2)%Z then
    v <- checkIfTimePassed (lastModified header) ;;
    if negb (retDateParse_eqb v FAILURE_TO_PARSE) then ret (true, lastModified header)
    else ret (exitLoop, requestDate)
  else if (priority =? 3)%Z then
    v <- checkIfTimePassed (lastAccessTime header) ;;
    if negb (retDateParse_eqb v FAILURE_TO_PARSE) then ret (true, lastAccessTime header)
    else ret (exitLoop, requestDate)
  else ret (exitLoop, requestDate).

(** The [while (priority <= 3)] loop; [fuel] bounds the number of
    iterations ([cascade_loop_fuel] below: 3 are enough from priority 1). *)
Fixpoint cascade_loop (fuel : nat) (priority : Z) (header : httpHeader)
         (exitLoop : bool) (requestDate : string) : M (bool * string) :=
  match fuel with
  | O => ret (exitLoop, requestDate)
  | S fuel' =>
      if (priority <=? 3)%Z then
        r <- cascade_switch priority header exitLoop requestDate ;;
        let (exitLoop, requestDate) := r in
        if exitLoop then ret (exitLoop, requestDate)
        else cascade_loop fuel' (priority + 1)%Z header exitLoop requestDate
      else ret (exitLoop, requestDate)
  end.

Definition handleCache (header : httpHeader) : M httpHeader :=
  let key := hostName header ++ filePath header in
  r <- catch_runtime_error
         (fetchedHeader <- cache_fetch key ;; proceed fetchedHeader)
         (fun _ => cache_add key header ;;; returned header) ;;
  match r with
  | inl h => ret h
  | inr fetchedHeader =>
      r <- cascade_loop 4 1 header false EmptyString ;;
      let (exitLoop, requestDate) := r in
      if negb exitLoop then ret fetchedHeader
      else
        newResponse <- sendIfModifiedSinceRequest requestDate fetchedHeader ;;
        if empty newResponse then ret fetchedHeader
        else
          let '(date, lastModified, expires) :=
            parseHTTPresponse newResponse EmptyString EmptyString EmptyString in
          let newResponse := parseHTTPBody newResponse in
          if empty newResponse then ret fetchedHeader
          else
            let updatedHeader :=
              mkHeader (hostName fetchedHeader) (filePath fetchedHeader)
                       date lastModified expires newResponse in
            cache_add key updatedHeader ;;; ret updatedHeader
  end.

(* ------------------------------------------------------------------ *)
(** * The readiness loop of [main]: one readable client descriptor

    [recBytes] is what [read(descriptor, receiveBuf, BUFFER_SIZE)]
    returned and [receiveBuf] the bytes it stored in the zeroed buffer
    (fewer than [BUFFER_SIZE], so that the buffer is a C string). *)

Definition main_request_format : string :=
  "GET %s HTTP/1.0" ++ CRLF ++ "Host: %s" ++ CRLF ++ CRLF.

Definition main_client (descriptor recBytes : Z) (receiveBuf : string) : M unit :=
  if (recBytes =? -1)%Z then close descriptor
  else
    let getRequest := c_str receiveBuf in
    let '(_, path, host) := parseHTTPrequest getRequest EmptyString EmptyString in
    webSockFd <- connectToServer host "80" ;;
    if (webSockFd =? -1)%Z then close descriptor
    else
      let httpRequest := char_array 512 (snprintf 512 main_request_format [path; host]) in
      send_ webSockFd httpRequest ;;;
      let responseBuffer := recv_loop (recv webSockFd httpRequest) EmptyString in
      close webSockFd ;;;
      let '(date, lastModified, expires) :=
        parseHTTPresponse responseBuffer EmptyString EmptyString EmptyString in
      let responseBuffer := parseHTTPBody responseBuffer in
      if empty responseBuffer then close descriptor
      else
        let header := mkHeader host path date lastModified expires responseBuffer in
        headerToReturn <- handleCache header ;;
        let bufferToSend := body headerToReturn in
        send_ descriptor bufferToSend ;;;
        close descriptor.

End Program.

(* ------------------------------------------------------------------ *)
(** * A reference platform

    A C library in the "C" locale and a scripted network, for running the
    program on concrete inputs. *)

Module Reference.

Definition lower (c : ascii) : ascii :=
  let n := nat_of_ascii c in
  if ((65 <=? n) && (n <=? 90))%nat then ascii_of_nat (n + 32) else c.

Definition is_digit (c : ascii) : bool :=
  let n := nat_of_ascii c in ((48 <=? n) && (n <=? 57))%nat.

Definition digit_value (c : ascii) : Z := Z.of_nat (nat_of_ascii c - 48).

(** Case-insensitive prefix test; the rest of the input when it holds. *)
Fixpoint strip_prefix_ci (name s : string) : option string :=
  match name, s with
  | EmptyString, _ => Some s
  | String a name', String b s' =>
      if Ascii.eqb (lower a) (lower b) then strip_prefix_ci name' s' else None
  | String _ _, EmptyString => None
  end.

(** First name of the table that prefixes the input, with its index. *)
Fixpoint match_name (names : list string) (i : Z) (s : string) : option (Z * string) :=
  match names with
  | [] => None
  | n :: names' =>
      match strip_prefix_ci n s with
      | Some rest => Some (i, rest)
      | None => match_name names' (i + 1)%Z s
      end
  end.

Definition weekdays_full : list string :=
  ["Sunday"; "Monday"; "Tuesday"; "Wednesday"; "Thursday"; "Friday"; "Saturday"].
Definition weekdays_abbr : list string :=
  ["Sun"; "Mon"; "Tue"; "Wed"; "Thu"; "Fri"; "Sat"].
Definition months_full : list string :=
  ["January"; "February"; "March"; "April"; "May"; "June"; "July";
   "August"; "September"; "October"; "November"; "December"].
Definition months_abbr : list string :=
  ["Jan"; "Feb"; "Mar"; "Apr"; "May"; "Jun"; "Jul"; "Aug"; "Sep"; "Oct"; "Nov"; "Dec"].

Definition match_either (full abbr : list string) (s : string) : option (Z * string) :=
  match match_name full 0 s with
  | Some r => Some r
  | None => match_name abbr 0 s
  end.

(** At most [digits] decimal digits, at least one. *)
Fixpoint read_digits (digits : nat) (s : string) (acc : Z) (seen : bool)
  : option (Z * string) :=
  match digits, s with
  | S d, String c s' =>
      if is_digit c then read_digits d s' (acc * 10 + digit_value c)%Z true
      else if seen then Some (acc, s) else None
  | _, _ => if seen then Some (acc, s) else None
  end.

Definition read_number (digits : nat) (lo hi : Z) (s : string) : option (Z * string) :=
  match read_digits digits s 0 false with
  | Some (v, rest) => if ((lo <=? v) && (v <=? hi))%Z then Some (v, rest) else None
  | None => None
  end.

Fixpoint skip_spaces (s : string) : string :=
  match s with
  | String c s' => if is_space c then skip_spaces s' else s
  | EmptyString => s
  end.

Definition tm_zero : tm := mkTm 0 0 0 0 0 0 0 0 0.

Definition set_field (d : ascii) (v : Z) (t : tm) : tm :=
  if Ascii.eqb d "a" then mkTm (tm_sec t) (tm_min t) (tm_hour t) (tm_mday t) (tm_mon t) (tm_year t) v (tm_yday t) (tm_isdst t)
  else if Ascii.eqb d "d" then mkTm (tm_sec t) (tm_min t) (tm_hour t) v (tm_mon t) (tm_year t) (tm_wday t) (tm_yday t) (tm_isdst t)
  else if Ascii.eqb d "b" then mkTm (tm_sec t) (tm_min t) (tm_hour t) (tm_mday t) v (tm_year t) (tm_wday t) (tm_yday t) (tm_isdst t)
  else if Ascii.eqb d "Y" then mkTm (tm_sec t) (tm_min t) (tm_hour t) (tm_mday t) (tm_mon t) (v - 1900)%Z (tm_wday t) (tm_yday t) (tm_isdst t)
  else if Ascii.eqb d "H" then mkTm (tm_sec t) (tm_min t) v (tm_mday t) (tm_mon t) (tm_year t) (tm_wday t) (tm_yday t) (tm_isdst t)
  else if Ascii.eqb d "M" then mkTm (tm_sec t) v (tm_hour t) (tm_mday t) (tm_mon t) (tm_year t) (tm_wday t) (tm_yday t) (tm_isdst t)
  else if Ascii.eqb d "S" then mkTm v (tm_min t) (tm_hour t) (tm_mday t) (tm_mon t) (tm_year t) (tm_wday t) (tm_yday t) (tm_isdst t)
  else t.

(** One conversion specification applied to the input. *)
Definition convert (d : ascii) (s : string) : option (Z * string) :=
  if Ascii.eqb d "a" then match_either weekdays_full weekdays_abbr s
  else if Ascii.eqb d "b" then match_either months_full months_abbr s
  else if Ascii.eqb d "d" then read_number 2 1 31 s
  else if Ascii.eqb d "Y" then read_number 4 0 9999 s
  else if Ascii.eqb d "H" then read_number 2 0 23 s
  else if Ascii.eqb d "M" then read_number 2 0 59 s
  else if Ascii.eqb d "S" then read_number 2 0 60 s
  else None.

(** [get_time] over the conversions [%a %d %b %Y %H %M %S]: white space
    in the format skips white space in the input, any other character is
    matched regardless of case, characters after the last field are left
    in the stream.  A conversion that takes the last character of the
    input ends the parse without failure, whatever is left of the format
    (the stream is at its end, which alone is no failure). *)
Fixpoint get_time_from (fmt s : string) (t : tm) : option tm :=
  match fmt with
  | EmptyString => Some t
  | String c fmt' =>
      if Ascii.eqb c "%" then
        match fmt' with
        | String d fmt'' =>
            match convert d s with
            | Some (v, rest) =>
                if empty rest then Some (set_field d v t)
                else get_time_from fmt'' rest (set_field d v t)
            | None => None
            end
        | EmptyString => None
        end
      else if is_space c then get_time_from fmt' (skip_spaces s) t
      else
        match s with
        | String c' s' =>
            if Ascii.eqb (lower c) (lower c') then get_time_from fmt' s' t else None
        | EmptyString => None
        end
  end.

(** The stream extraction first skips leading white space; an input with
    nothing after it fails. *)
Definition get_time_c (fmt s : string) : option tm :=
  get_time_from fmt (skip_spaces s) tm_zero.

(** Days from 1970-01-01 to the civil date [y]-[m]-[d], [m] in 1..12. *)
Definition days_from_civil (y m d : Z) : Z :=
  let y := (if m <=? 2 then y - 1 else y)%Z in
  let era := (y / 400)%Z in
  let yoe := (y - era * 400)%Z in
  let doy := ((153 * (if 2 <? m then m - 3 else m + 9) + 2) / 5 + d - 1)%Z in
  let doe := (yoe * 365 + yoe / 4 - yoe / 100 + doy)%Z in
  (era * 146097 + doe - 719468)%Z.

Definition timegm_utc (t : tm) : Z :=
  (days_from_civil (tm_year t + 1900) (tm_mon t + 1) (tm_mday t) * 86400
   + tm_hour t * 3600 + tm_min t * 60 + tm_sec t)%Z.

(** A scripted network: the hosts that resolve (each to one address whose
    socket gets the descriptor given), the reply to a request carrying
    [If-Modified-Since] and the reply to any other request. *)
Record script : Type := mkScript {
  now : Z;
  hosts : list (string * Z);
  reply_conditional : list string;
  reply_full : list string
}.

Fixpoint resolve (host : string) (l : list (string * Z)) : Z * list addrinfo :=
  match l with
  | [] => ((-2)%Z, [])
  | (h, fd) :: l' => if String.eqb h host then (0%Z, [mkAddrinfo fd 0]) else resolve host l'
  end.

Definition is_conditional (bytes : string) : bool :=
  match find "If-Modified-Since" bytes with Some _ => true | None => false end.

Definition platform (sc : script) : Platform := {|
  get_time := get_time_c;
  timegm := timegm_utc;
  time := fun _ => now sc;
  getaddrinfo := fun host _ => resolve host (hosts sc);
  send := fun _ bytes => Z.of_nat (length bytes);
  recv := fun _ bytes => if is_conditional bytes then reply_conditional sc else reply_full sc;
  stack_byte := fun _ => NUL
|}.

End Reference.

(* ------------------------------------------------------------------ *)
(** * Specification-side definitions *)

(** The verdict of the spec's [classify]: parse failure, else already
    passed when the instant is at or before now, else not yet passed. *)
Definition classify (parsed : option Z) (now : Z) : retDateParse :=
  match parsed with
  | None => FAILURE_TO_PARSE
  | Some instant => if (instant <=? now)%Z then TIME_UNIT_PASSED else SUCCESS
  end.

Section Specification.

Context {P : Platform}.

(** The instant a text denotes in the fixed layout, when it has one. *)
Definition parsed_instant (text : string) : option Z :=
  option_map (fun t => timegm (set_tm_isdst t (-1)))
             (get_time "%a, %d %b %Y %H:%M:%S" text).

Definition parses (text : string) : bool :=
  match parsed_instant text with Some _ => true | None => false end.

(** The spec's priority cascade over the date fields of one entry. *)
Definition select_date (now : Z) (e : httpHeader) : option string :=
  if retDateParse_eqb (classify (parsed_instant (expires e)) now) SUCCESS
  then Some (expires e)
  else if parses (lastModified e) then Some (lastModified e)
  else if parses (lastAccessTime e) then Some (lastAccessTime e)
  else None.

End Specification.

(** The spec's fixed layout, read strictly: a weekday name, a comma and a
    blank, two digits of day, a blank, a month name, a blank, four digits
    of year, a blank, and hour, minute and second of two digits each with
    colons between them, and nothing before or after. *)
Definition and_then {A B : Type} (o : option A) (f : A -> option B) : option B :=
  match o with Some a => f a | None => None end.

Definition expect (p s : string) : option string :=
  if starts_with p s then Some (drop (length p) s) else None.

Fixpoint digits_exact (n : nat) (s : string) : option string :=
  match n with
  | O => Some s
  | S n' =>
      match s with
      | String c s' => if Reference.is_digit c then digits_exact n' s' else None
      | EmptyString => None
      end
  end.

Definition name_from (full abbr : list string) (s : string) : option string :=
  option_map snd (Reference.match_either full abbr s).

Definition exact_layout (text : string) : bool :=
  match
    and_then (name_from Reference.weekdays_full Reference.weekdays_abbr text) (fun r =>
    and_then (expect ", " r) (fun r =>
    and_then (digits_exact 2 r) (fun r =>
    and_then (expect " " r) (fun r =>
    and_then (name_from Reference.months_full Reference.months_abbr r) (fun r =>
    and_then (expect " " r) (fun r =>
    and_then (digits_exact 4 r) (fun r =>
    and_then (expect " " r) (fun r =>
    and_then (digits_exact 2 r) (fun r =>
    and_then (expect ":" r) (fun r =>
    and_then (digits_exact 2 r) (fun r =>
    and_then (expect ":" r) (fun r =>
    digits_exact 2 r))))))))))))
  with
  | Some EmptyString => true
  | _ => false
  end.

(** Sequences of cache operations. *)
Inductive cache_op : Type :=
| OpFetch (key : string)
| OpAdd (key : string) (e : httpHeader).

Definition apply_op (c : LRUCache) (o : cache_op) : LRUCache :=
  match o with
  | OpFetch key => snd (fetch key c)
  | OpAdd key e => add key e c
  end.

Definition run_ops (c : LRUCache) (ops : list cache_op) : LRUCache :=
  fold_left apply_op ops c.

Definition add_all (c : LRUCache) (l : list (string * httpHeader)) : LRUCache :=
  fold_left (fun c ke => add (fst ke) (snd ke) c) l c.

(** The representation invariant of the cache: the recency order holds
    every resident key once and at most [capacity] of them. *)
Definition well_formed (c : LRUCache) : Prop :=
  NoDup (keys c) /\ size c <= capacity c.

(** No key occurs twice. *)
Fixpoint distinct (ks : list string) : bool :=
  match ks with
  | [] => true
  | k :: ks' => negb (existsb (String.eqb k) ks') && distinct ks'
  end.

(** Events of a trace by kind. *)
Definition is_connect (e : event) : bool :=
  match e with EvConnect _ _ => true | _ => false end.
Definition is_cache_add (e : event) : bool :=
  match e with EvCacheAdd _ _ => true | _ => false end.
Definition connects (evs : list event) : nat := List.length (filter is_connect evs).
Definition cache_adds (evs : list event) : nat := List.length (filter is_cache_add evs).

(** The cache after the [add] calls recorded in a list of events. *)
Definition replay_adds (c : LRUCache) (evs : list event) : LRUCache :=
  fold_left (fun c ev => match ev with EvCacheAdd key e => add key e c | _ => c end)
            evs c.

(** The events a computation appended to the trace. *)
Definition new_events (before after : St) : list event :=
  skipn (List.length (trace before)) (trace after).

(** [s] ends with [suffix]. *)
Definition ends_with (suffix s : string) : bool :=
  (length suffix <=? length s)%nat
  && String.eqb (drop (length s - length suffix) s) suffix.

(** The request [ifModReq] is meant to hold, before truncation to the
    buffer. *)
Definition conditional_request (date path host : string) : string :=
  "GET " ++ path ++ " HTTP/1.0" ++ CRLF ++ "Host: " ++ host ++ CRLF
  ++ CRLF ++ "If-Modified-Since: " ++ date ++ CRLF ++ CRLF.

(* ------------------------------------------------------------------ *)
(** * The pure content of the network exchanges *)

Section Exchanges.

Context {P : Platform}.

(** The descriptor [connectToServer] returns. *)
Definition connect_result (hostName port : string) : Z :=
  let (status, server_info) := getaddrinfo hostName port in
  if negb (status =? 0)%Z then (-1)%Z else try_addresses server_info.

(** The reply and the events of [sendIfModifiedSinceRequest]. *)
Definition conditional_exchange (date : string) (header : httpHeader)
  : string * list event :=
  let fd := connect_result (hostName header) "80" in
  let buf := char_array 256 (ifModReq date header) in
  if (fd =? -1)%Z then (EmptyString, [EvConnect (hostName header) fd])
  else if (send fd buf =? -1)%Z
       then (EmptyString, [EvConnect (hostName header) fd; EvSend fd buf])
       else (recv_loop (recv fd buf) EmptyString,
             [EvConnect (hostName header) fd; EvSend fd buf]).

(** The 512 bytes [main] sends for its unconditional request. *)
Definition full_request (path host : string) : string :=
  char_array 512 (snprintf 512 main_request_format [path; host]).

(** The header [main] forms from the unconditional reply. *)
Definition main_header (host path responseBuffer : string) : httpHeader :=
  let '(date, lastModified, expires) :=
    parseHTTPresponse responseBuffer EmptyString EmptyString EmptyString in
  mkHeader host path date lastModified expires (parseHTTPBody responseBuffer).

(** The events [handleCache] appends after its [EvCacheFetch] on a hit
    with entry [fetched], for the header it was called with and the clock
    value [now], and the header it returns. *)
Definition revalidation (now : Z) (header fetched : httpHeader)
  : httpHeader * list event :=
  match select_date now header with
  | None => (fetched, [])
  | Some date =>
      let (newResponse, evs) := conditional_exchange date fetched in
      if empty newResponse then (fetched, evs)
      else if empty (parseHTTPBody newResponse) then (fetched, evs)
      else
        let updated :=
          main_header (hostName fetched) (filePath fetched) newResponse in
        (updated, (evs ++ [EvCacheAdd (hostName header ++ filePath header) updated])%list)
  end.

End Exchanges.

(* ------------------------------------------------------------------ *)
(** * Concrete scenarios on the reference platform *)

Module Scenario.

Definition date_2023 : string := "Sun, 31 Dec 2023 00:00:00 GMT".
Definition date_2024 : string := "Mon, 01 Jan 2024 00:00:00 GMT".
Definition date_2025 : string := "Wed, 01 Jan 2025 00:00:00 GMT".

(** 2024-01-01 12:00:00 UTC. *)
Definition noon_2024 : Z := 1704110400.

(** An origin reply with all three date headers. *)
Definition reply_dated (content : string) : string :=
  "HTTP/1.0 200 OK" ++ CRLF
  ++ "Date: " ++ date_2024 ++ CRLF
  ++ "Last-Modified: " ++ date_2023 ++ CRLF
  ++ "Expires: " ++ date_2025 ++ CRLF
  ++ CRLF ++ content.

(** An origin reply without date headers. *)
Definition reply_undated (content : string) : string :=
  "HTTP/1.0 200 OK" ++ CRLF ++ "Server: origin" ++ CRLF ++ CRLF ++ content.

Definition get_request (method path host : string) : string :=
  method ++ " " ++ path ++ " HTTP/1.0" ++ CRLF ++ "Host: " ++ host ++ CRLF ++ CRLF.

(** A well-formed client request and one with another method. *)
Definition request_x : string := get_request "GET" "/x" "a.example".
Definition request_post : string := get_request "POST" "/x" "a.example".

(** What [read] returns for a buffer holding [s]. *)
Definition read_count (s : string) : Z := Z.of_nat (length s).

(** The origin [a.example] answers every full request with a dated page
    and every conditional request with a newer page. *)
Definition origin_dated : Reference.script :=
  Reference.mkScript noon_2024 [("a.example", 7%Z)]
                     [reply_dated "page v2"] [reply_dated "page v1"].

(** The same origin when its full reply carries no date header. *)
Definition origin_undated : Reference.script :=
  Reference.mkScript noon_2024 [("a.example", 7%Z)]
                     [reply_dated "page v2"] [reply_undated "page v1"].

(** The origin when it answers a conditional request without a body. *)
Definition origin_not_modified : Reference.script :=
  Reference.mkScript noon_2024 [("a.example", 7%Z)]
                     ["HTTP/1.0 304 Not Modified" ++ CRLF ++ CRLF]
                     [reply_dated "page v1"].

(** A resolver that answers the empty host name too. *)
Definition origin_any : Reference.script :=
  Reference.mkScript noon_2024 [("a.example", 7%Z); (EmptyString, 9%Z)]
                     [reply_dated "page v2"] [reply_dated "page v1"].

(** The entry a first request for [a.example/x] leaves in the cache when
    the origin sent a future [Expires]. *)
Definition cached_entry : httpHeader :=
  mkHeader "a.example" "/x" date_2024 EmptyString date_2025 "page v0".

Definition cache_with_entry : LRUCache :=
  add "a.example/x" cached_entry (LRUCache_new 10).

Definition state_with_entry : St := mkSt cache_with_entry [] 0.
Definition state_empty : St := mkSt (LRUCache_new 10) [] 0.

(** The header [main] builds from a full reply with date headers. *)
Definition dated_header : httpHeader :=
  mkHeader "a.example" "/x" date_2024 EmptyString date_2025 "page v1".

(** The header [main] builds from a full reply without date headers. *)
Definition undated_header : httpHeader :=
  mkHeader "a.example" "/x" EmptyString EmptyString EmptyString "page v1".

(** A path of 300 characters. *)
Fixpoint repeat_char (c : ascii) (n : nat) : string :=
  match n with O => EmptyString | S n' => String c (repeat_char c n') end.
Definition long_path : string := String "/" (repeat_char "a" 299).

(** Eleven distinct keys. *)
Definition eleven_keys : list (string * httpHeader) :=
  map (fun k => (k, mkHeader k EmptyString EmptyString EmptyString EmptyString k))
      ["k01"; "k02"; "k03"; "k04"; "k05"; "k06"; "k07"; "k08"; "k09"; "k10"; "k11"].

End Scenario.

(* ------------------------------------------------------------------ *)
(** * The descriptor loop of [main] and auxiliary predicates *)

(** Every character of [s] satisfies [p]. *)
Fixpoint all_chars (p : ascii -> bool) (s : string) : bool :=
  match s with
  | EmptyString => true
  | String c s' => p c && all_chars p s'
  end.

(** [s] is empty or begins with a character outside [p]: where a greedy
    star over [p] cannot go on. *)
Definition stops (p : ascii -> bool) (s : string) : bool :=
  match s with
  | EmptyString => true
  | String c _ => negb (p c)
  end.

(** [s] holds no NUL: it is the same as a [std::string] and as a C string. *)
Definition no_nul (s : string) : bool :=
  all_chars (fun c => negb (Ascii.eqb c NUL)) s.

(** The text of the open group after the characters of [w] were taken. *)
Fixpoint push_all (w : string) (cur : option string) : option string :=
  match w with
  | EmptyString => cur
  | String c w' => push_all w' (push c cur)
  end.

(** A candidate address for which [socket] and [connect] both succeed. *)
Definition usable (p : addrinfo) : bool :=
  negb (ai_socket p =? -1)%Z && negb (ai_connect p =? -1)%Z.

Definition is_close (e : event) : bool :=
  match e with EvClose _ => true | _ => false end.
Definition is_send (e : event) : bool :=
  match e with EvSend _ _ => true | _ => false end.
Definition is_cache_event (e : event) : bool :=
  match e with EvCacheFetch _ | EvCacheAdd _ _ => true | _ => false end.

(** Every entry is stored under the concatenation of its own host name
    and file path. *)
Definition coherent (c : LRUCache) : Prop :=
  forall (k : string) (e : httpHeader),
    lookup k (order c) = Some e -> hostName e ++ filePath e = k.

(** A client request: [GET], white space, the path, white space,
    [HTTP/1.0\r\nHost:], optional white space, the host, [\r\n] and
    whatever follows. *)
Definition request_text (ws1 path ws2 ws3 host rest : string) : string :=
  "GET" ++ ws1 ++ path ++ ws2 ++ "HTTP/1.0" ++ CRLF
  ++ "Host:" ++ ws3 ++ host ++ CRLF ++ rest.

(** The pattern [parseHTTPresponse] builds for the header called [name]. *)
Definition header_regex (name : string) : regex :=
  (lit name ++ [RStar is_space; RGroupOpen; RStar any_char; RGroupClose] ++ lit CRLF)%list.

(** An [fd_set], as the list of the descriptors that are set.  The
    source's set has [FD_SETSIZE] bits and [FD_SET] on a descriptor outside
    [0, FD_SETSIZE) writes outside it: the list stands for the set only
    while every descriptor is in that range ([in_fd_range]). *)
Definition FD_SETSIZE : Z := 1024.
Definition in_fd_range (fd : Z) : Prop := (0 <= fd < FD_SETSIZE)%Z.
Definition fd_set : Type := list Z.
Definition FD_ISSET (fd : Z) (set : fd_set) : bool := existsb (Z.eqb fd) set.
Definition FD_SET (fd : Z) (set : fd_set) : fd_set :=
  if FD_ISSET fd set then set else fd :: set.
Definition FD_CLR (fd : Z) (set : fd_set) : fd_set :=
  filter (fun x => negb (Z.eqb fd x)) set.

(** The variables of [main] the descriptor loop updates. *)
Record loop_state : Type := mkLoop {
  masterReadFds : fd_set;
  MaxFd : Z
}.

Section Loop.

Context {P : Platform}.

(** One iteration of [for (descriptor = 0; descriptor <= MaxFd; ...)]:
    [readFds] is the set [select] left, [clientSocketFd] the value of
    [accept] should the listening socket be ready, [recBytes] and
    [receiveBuf] the outcome of [read] should a client be.  Every path of
    the client branch clears the descriptor from [masterReadFds] before it
    closes it. *)
Definition main_descriptor (serverSocketFd descriptor : Z) (readFds : fd_set)
           (clientSocketFd recBytes : Z) (receiveBuf : string) (ls : loop_state)
  : M loop_state :=
  if negb (FD_ISSET descriptor readFds) then ret ls
  else if (descriptor =? serverSocketFd)%Z then
    if (clientSocketFd =? -1)%Z then ret ls
    else ret (mkLoop (FD_SET clientSocketFd (masterReadFds ls))
                     (if (MaxFd ls <? clientSocketFd)%Z then clientSocketFd
                      else MaxFd ls))
  else
    main_client descriptor recBytes receiveBuf ;;;
    ret (mkLoop (FD_CLR descriptor (masterReadFds ls)) (MaxFd ls)).

End Loop.

(** All descriptors [select] is asked to watch are below its first
    argument [MaxFd + 1]. *)
Definition watched (ls : loop_state) : Prop :=
  forall fd : Z, In fd (masterReadFds ls) -> (fd <= MaxFd ls)%Z.

(* ------------------------------------------------------------------ *)
(** * Strings *)

Lemma append_assoc (a b c : string) : (a ++ b) ++ c = a ++ (b ++ c).
Proof. induction a as [|x a IH]; simpl; [reflexivity | now rewrite IH]. Qed.

Lemma append_empty_r (a : string) : a ++ EmptyString = a.
Proof. induction a as [|x a IH]; simpl; [reflexivity | now rewrite IH]. Qed.

Lemma length_append (a b : string) : length (a ++ b) = length a + length b.
Proof. induction a as [|x a IH]; simpl; [reflexivity | now rewrite IH]. Qed.

Lemma starts_with_length (pat s : string) :
  starts_with pat s = true -> length pat <= length s.
Proof.
  revert s; induction pat as [|a pat IH]; intros [|b s]; simpl; try lia; try discriminate.
  intros H. apply andb_prop in H as [_ H]. apply IH in H. lia.
Qed.

Lemma starts_with_self_app (pat rest : string) : starts_with pat (pat ++ rest) = true.
Proof.
  induction pat as [|a pat IH]; simpl; [reflexivity|].
  now rewrite Ascii.eqb_refl, IH.
Qed.

(** Only the first [length pat] characters of the subject matter. *)
Lemma starts_with_app (pat s rest : string) :
  length pat <= length s -> starts_with pat (s ++ rest) = starts_with pat s.
Proof.
  revert s; induction pat as [|a pat IH]; intros [|b s]; simpl; intros H;
    try reflexivity; try lia.
  rewrite IH by lia. reflexivity.
Qed.

Lemma find_bound (pat s : string) (i : nat) :
  find pat s = Some i -> i + length pat <= length s.
Proof.
  revert i; induction s as [|c s IH]; intros i; simpl.
  - destruct (starts_with pat EmptyString) eqn:E; [|discriminate].
    intros [= <-]. apply starts_with_length in E. simpl in *. lia.
  - destruct (starts_with pat (String c s)) eqn:E.
    + intros [= <-]. apply starts_with_length in E. simpl in *. lia.
    + destruct (find pat s) as [j|]; simpl; [|discriminate].
      intros [= <-]. specialize (IH j eq_refl). lia.
Qed.

Lemma find_none_app_false (pat s : string) :
  find pat s = None -> starts_with pat s = false.
Proof.
  destruct s; simpl; destruct (starts_with pat _); congruence.
Qed.

Lemma starts_with_cons_inv (a b : ascii) (pat s : string) :
  starts_with (String a pat) (String b s) = true -> a = b /\ starts_with pat s = true.
Proof.
  simpl. intros H. apply andb_prop in H as [H1 H2].
  apply Ascii.eqb_eq in H1. now split.
Qed.

Lemma separator_chars :
  separator = String CR (String LF (String CR (String LF EmptyString))).
Proof. reflexivity. Qed.

Lemma find_cons (pat : string) (c : ascii) (s : string) :
  find pat (String c s)
  = if starts_with pat (String c s) then Some 0 else option_map S (find pat s).
Proof. reflexivity. Qed.

Lemma find_starts_with (pat s : string) :
  starts_with pat s = true -> find pat s = Some 0.
Proof. intros H. destruct s; simpl; rewrite H; reflexivity. Qed.

(** When the first occurrence in [h ++ pat] is the appended one, it is
    also the first occurrence in [h ++ pat ++ b]. *)
Lemma find_app_first (pat h b : string) :
  find pat (h ++ pat) = Some (length h) ->
  find pat (h ++ pat ++ b) = Some (length h).
Proof.
  induction h as [|c h IH]; simpl.
  - intros _. apply find_starts_with, starts_with_self_app.
  - destruct (starts_with pat (String c (h ++ pat))) eqn:E; [discriminate|].
    destruct (find pat (h ++ pat)) as [j|] eqn:F; simpl; [|discriminate].
    intros [= ->].
    assert (E' : starts_with pat (String c (h ++ pat ++ b)) = false).
    { rewrite <- E. rewrite <- append_assoc.
      change (String c ((h ++ pat) ++ b)) with (String c (h ++ pat) ++ b).
      apply starts_with_app. simpl. rewrite length_append. lia. }
    rewrite E'. rewrite IH by reflexivity. reflexivity.
Qed.

Lemma drop_app_length (h s : string) (n : nat) :
  drop (length h + n) (h ++ s) = drop n s.
Proof. induction h as [|c h IH]; simpl; [reflexivity | exact IH]. Qed.

Lemma drop_all (s : string) : drop (length s) s = EmptyString.
Proof. induction s as [|c s IH]; simpl; [reflexivity | exact IH]. Qed.

Lemma take_all (n : nat) (s : string) : length s <= n -> take n s = s.
Proof.
  revert s; induction n as [|n IH]; intros [|c s]; simpl; intros H;
    try reflexivity; try lia.
  rewrite IH by lia. reflexivity.
Qed.

Lemma length_take (n : nat) (s : string) : length (take n s) = Nat.min n (length s).
Proof.
  revert s; induction n as [|n IH]; intros [|c s]; simpl; try reflexivity.
  now rewrite IH.
Qed.

Lemma length_separator : length separator = 4.
Proof. reflexivity. Qed.

(* ------------------------------------------------------------------ *)
(** * [parseHTTPBody] *)

Lemma parseHTTPBody_no_separator (s : string) :
  find separator s = None -> parseHTTPBody_exit s = (NoSeparator, EmptyString).
Proof. unfold parseHTTPBody_exit. intros ->. reflexivity. Qed.

Lemma parseHTTPBody_found (s : string) (i : nat) :
  find separator s = Some i ->
  i + 4 <= length s /\ parseHTTPBody_exit s = (BodyFound, drop (i + 4) s).
Proof.
  intros F. pose proof (find_bound _ _ _ F) as B. rewrite length_separator in B.
  split; [exact B|].
  unfold parseHTTPBody_exit, substr. rewrite F.
  destruct (Nat.ltb_spec (length s) (i + 4)); [lia | reflexivity].
Qed.

(** A header block without separator that does not end in [\r\n] is
    followed by the first separator of [h ++ separator]. *)
Lemma find_separator_after_header_aux (h : string) :
  find separator h = None ->
  ~ (exists pre, h = pre ++ CRLF) ->
  find separator (h ++ separator) = Some (length h).
Proof.
  induction h as [|c h IH]; intros F E.
  - reflexivity.
  - assert (Fh : find separator h = None).
    { rewrite find_cons in F.
      destruct (starts_with separator (String c h)); [discriminate|].
      destruct (find separator h); [discriminate | reflexivity]. }
    assert (Eh : ~ (exists pre, h = pre ++ CRLF)).
    { intros [pre ->]. apply E. exists (String c pre). reflexivity. }
    assert (S0 : starts_with separator (String c h ++ separator) = false).
    { destruct h as [|c1 [|c2 [|c3 h]]].
      - destruct (starts_with _ _) eqn:S0; [exfalso | reflexivity].
        rewrite separator_chars in S0. cbn [append] in S0.
        apply starts_with_cons_inv in S0 as [_ S0].
        apply starts_with_cons_inv in S0 as [S0 _]. discriminate S0.
      - destruct (starts_with _ _) eqn:S0; [exfalso | reflexivity].
        rewrite separator_chars in S0. cbn [append] in S0.
        apply starts_with_cons_inv in S0 as [<- S0].
        apply starts_with_cons_inv in S0 as [<- _].
        apply E. exists EmptyString. reflexivity.
      - destruct (starts_with _ _) eqn:S0; [exfalso | reflexivity].
        rewrite separator_chars in S0. cbn [append] in S0.
        apply starts_with_cons_inv in S0 as [_ S0].
        apply starts_with_cons_inv in S0 as [_ S0].
        apply starts_with_cons_inv in S0 as [_ S0].
        apply starts_with_cons_inv in S0 as [S0 _]. discriminate S0.
      - rewrite starts_with_app; [exact (find_none_app_false _ _ F) | simpl; lia]. }
    change (String c h ++ separator) with (String c (h ++ separator)) in *.
    rewrite find_cons, S0, (IH Fh Eh). reflexivity.
Qed.

Lemma ends_with_app (pre suffix : string) : ends_with suffix (pre ++ suffix) = true.
Proof.
  unfold ends_with. rewrite length_append.
  replace (length pre + length suffix - length suffix) with (length pre + 0) by lia.
  rewrite drop_app_length. simpl. rewrite String.eqb_refl.
  destruct (Nat.leb_spec (length suffix) (length pre + length suffix)); [reflexivity | lia].
Qed.

Lemma find_separator_after_header (h : string) :
  find separator h = None ->
  ends_with CRLF h = false ->
  find separator (h ++ separator) = Some (length h).
Proof.
  intros F E. apply find_separator_after_header_aux; [exact F|].
  intros [pre ->]. rewrite ends_with_app in E. discriminate.
Qed.

Lemma parseHTTPBody_app (h b : string) :
  find separator (h ++ separator) = Some (length h) ->
  parseHTTPBody (h ++ separator ++ b) = b.
Proof.
  intros F. apply find_app_first with (b := b) in F.
  unfold parseHTTPBody. destruct (parseHTTPBody_found _ _ F) as [_ ->]. simpl.
  rewrite drop_app_length. reflexivity.
Qed.

(** C9, as stated, fails: a header block whose last line carries its own
    line end is followed by an earlier blank line than the appended one,
    and the body found starts with a stray line end. *)
Lemma parseHTTPBody_roundtrip_counterexample :
  parseHTTPBody (("Date: x" ++ CRLF) ++ separator ++ "body") <> "body".
Proof. vm_compute. discriminate. Qed.

(** C9 (amended): for every header block [h] that holds no blank-line
    separator and does not end in a line end, and every body [b],
    [parseHTTPBody (h ++ "\r\n\r\n" ++ b)] is [b]; and for every input
    without separator the result is the empty string. *)
Theorem parseHTTPBody_roundtrip :
  forall h b s : string,
    find separator h = None ->
    ends_with CRLF h = false ->
    find separator s = None ->
    parseHTTPBody (h ++ separator ++ b) = b /\ parseHTTPBody s = EmptyString.
Proof.
  intros h b s Fh Eh Fs. split.
  - apply parseHTTPBody_app, find_separator_after_header; assumption.
  - unfold parseHTTPBody. now rewrite (parseHTTPBody_no_separator _ Fs).
Qed.

Lemma parseHTTPBody_roundtrip_witness :
  parseHTTPBody ("HTTP/1.0 200 OK" ++ separator ++ "body") = "body"
  /\ parseHTTPBody "no blank line here" = EmptyString.
Proof.
  apply (parseHTTPBody_roundtrip "HTTP/1.0 200 OK" "body" "no blank line here");
    reflexivity.
Defined.

(** C10, as stated, fails in its last part: an input can end with the
    separator and hold an earlier one, and then the result is not empty. *)
Lemma parseHTTPBody_trailing_separator_counterexample :
  ends_with separator (separator ++ CRLF) = true
  /\ parseHTTPBody (separator ++ CRLF) <> EmptyString.
Proof. split; [reflexivity | vm_compute; discriminate]. Qed.

(** C10 (amended): [parseHTTPBody] returns normally on every input, its
    [out_of_range] handler is never entered since the position of the
    first separator plus 4 is at most the length; an input whose first
    separator is its very end yields the empty string, as an input without
    separator does. *)
Theorem parseHTTPBody_total :
  forall s : string,
    fst (parseHTTPBody_exit s) <> CaughtOutOfRange
    /\ (forall i, find separator s = Some i ->
                  i + 4 <= length s
                  /\ substr s (i + 4) = Returns (parseHTTPBody s)
                  /\ (i + 4 = length s -> parseHTTPBody s = EmptyString))
    /\ (find separator s = None -> parseHTTPBody s = EmptyString).
Proof.
  intros s. split; [|split].
  - destruct (find separator s) as [i|] eqn:F.
    + destruct (parseHTTPBody_found _ _ F) as [_ ->]. discriminate.
    + rewrite (parseHTTPBody_no_separator _ F). discriminate.
  - intros i F. destruct (parseHTTPBody_found _ _ F) as [B E].
    unfold parseHTTPBody. rewrite E. simpl. split; [exact B|]. split.
    + unfold substr. destruct (Nat.ltb_spec (length s) (i + 4)); [lia | reflexivity].
    + intros ->. apply drop_all.
  - intros F. unfold parseHTTPBody. now rewrite (parseHTTPBody_no_separator _ F).
Qed.

Lemma parseHTTPBody_total_witness :
  parseHTTPBody ("HTTP/1.0 304 Not Modified" ++ separator) = EmptyString
  /\ parseHTTPBody "HTTP/1.0 304 Not Modified" = EmptyString.
Proof.
  destruct (parseHTTPBody_total ("HTTP/1.0 304 Not Modified" ++ separator)) as [_ [H _]].
  destruct (parseHTTPBody_total "HTTP/1.0 304 Not Modified") as [_ [_ N]].
  split.
  - destruct (H 25 eq_refl) as [_ [_ E]]. apply E. reflexivity.
  - apply N. reflexivity.
Defined.

(* ------------------------------------------------------------------ *)
(** * The conditional request *)

Lemma ifModReq_take (date : string) (header : httpHeader) :
  ifModReq date header
  = take 255 (conditional_request (c_str date) (c_str (filePath header))
                                  (c_str (hostName header))).
Proof. reflexivity. Qed.

Lemma length_conditional_request (date path host : string) :
  length (conditional_request date path host)
  = 48 + length path + length host + length date.
Proof.
  unfold conditional_request, CRLF.
  repeat (rewrite length_append; simpl length). lia.
Qed.

(** C8, as stated, fails: the request is built in a buffer of 256 bytes,
    and with a path of 300 characters nothing of the [If-Modified-Since]
    part is in it. *)
Lemma ifModReq_counterexample :
  find "If-Modified-Since"
       (ifModReq Scenario.date_2025
                 (mkHeader "a.example" Scenario.long_path
                           EmptyString EmptyString EmptyString EmptyString))
  = None.
Proof. vm_compute. reflexivity. Qed.

(** C8 (amended): the conditional request string is the first 255
    characters of [GET <path> HTTP/1.0\r\nHost: <host>\r\n], the blank-line
    terminator [\r\n] and [If-Modified-Since: <date>\r\n\r\n] after it
    (path, host and date as C strings); when 48 plus the three lengths is
    at most 255 it is that text in full. *)
Theorem ifModReq_layout :
  forall (date : string) (header : httpHeader),
    48 + length (c_str (filePath header)) + length (c_str (hostName header))
    + length (c_str date) <= 255 ->
    ifModReq date header
    = "GET " ++ c_str (filePath header) ++ " HTTP/1.0" ++ CRLF
      ++ "Host: " ++ c_str (hostName header) ++ CRLF
      ++ CRLF
      ++ "If-Modified-Since: " ++ c_str date ++ CRLF ++ CRLF.
Proof.
  intros date header B. rewrite ifModReq_take.
  apply (take_all 255 (conditional_request (c_str date) (c_str (filePath header))
                                           (c_str (hostName header)))).
  rewrite length_conditional_request. lia.
Qed.

Lemma ifModReq_layout_witness :
  ifModReq Scenario.date_2025 Scenario.cached_entry
  = "GET /x HTTP/1.0" ++ CRLF ++ "Host: a.example" ++ CRLF ++ CRLF
    ++ "If-Modified-Since: Wed, 01 Jan 2025 00:00:00 GMT" ++ CRLF ++ CRLF.
Proof.
  apply (ifModReq_layout Scenario.date_2025 Scenario.cached_entry).
  simpl. lia.
Defined.

(* ------------------------------------------------------------------ *)
(** * [parseHTTPresponse] *)

(** A header line that is absent leaves the caller's string as it was:
    empty at both call sites, which pass default-constructed strings. *)
Lemma parseHTTPresponse_absent (httpResponse : string) :
  regex_search httpResponse regDate = None ->
  regex_search httpResponse regExpires = None ->
  parseHTTPresponse httpResponse EmptyString EmptyString EmptyString
  = (EmptyString, EmptyString, EmptyString).
Proof. unfold parseHTTPresponse. intros -> ->. reflexivity. Qed.

(** C3: the code does not deliver [Last-Modified].  Whatever the response
    holds, the caller's [lastModified] after the call is the string it
    passed; on the reply of [Scenario.reply_dated] the function's own copy
    receives the header value and the caller's strings are the [Date] and
    [Expires] values with an empty [lastModified] between them. *)
Theorem parseHTTPresponse_lastModified_by_value :
  (forall httpResponse date lastModified expires : string,
      snd (fst (parseHTTPresponse httpResponse date lastModified expires))
      = lastModified)
  /\ parseHTTPresponse_local_lastModified (Scenario.reply_dated "page") EmptyString
     = Scenario.date_2023
  /\ parseHTTPresponse (Scenario.reply_dated "page") EmptyString EmptyString EmptyString
     = (Scenario.date_2024, EmptyString, Scenario.date_2025).
Proof.
  split; [|split].
  - reflexivity.
  - vm_compute. reflexivity.
  - vm_compute. reflexivity.
Qed.

(* ------------------------------------------------------------------ *)
(** * The date utility *)

Section DateUtility.

Context {P : Platform}.

Lemma parseHTTPDate_run (httpDate : string) (st : St) :
  parseHTTPDate httpDate st
  = match parsed_instant httpDate with
    | Some instant => (Returns instant, st)
    | None => (Throws (runtime_error "Failed to parse date!"), st)
    end.
Proof.
  unfold parseHTTPDate, parsed_instant.
  destruct (get_time _ httpDate); reflexivity.
Qed.

(** What one call does: the verdict is the spec's [classify] on the clock
    value read, and the clock is read only when the text parses. *)
Lemma checkIfTimePassed_run (httpTime : string) (st : St) :
  checkIfTimePassed httpTime st
  = (Returns (classify (parsed_instant httpTime) (time (ticks st))),
     if parses httpTime then mkSt (cache st) (trace st) (S (ticks st)) else st).
Proof.
  unfold checkIfTimePassed, bind, catch_runtime_error, parses.
  rewrite parseHTTPDate_run.
  destruct (parsed_instant httpTime) as [instant|]; simpl.
  - unfold time_nullptr. simpl. destruct (instant <=? time (ticks st))%Z; reflexivity.
  - reflexivity.
Qed.

Lemma classify_failure_iff (parsed : option Z) (now : Z) :
  retDateParse_eqb (classify parsed now) FAILURE_TO_PARSE
  = match parsed with Some _ => false | None => true end.
Proof.
  destruct parsed as [t|]; simpl; [|reflexivity].
  destruct (t <=? now)%Z; reflexivity.
Qed.

End DateUtility.

(** C7, as stated, fails: a text need not match the fixed layout to be
    parsed.  The extraction accepts a text that ends right after the year
    and one with white space before the weekday, and for both the verdict
    is [SUCCESS], not [FAILURE_TO_PARSE]. *)
Lemma checkIfTimePassed_layout_counterexample :
  let P := Reference.platform Scenario.origin_dated in
  exact_layout "Wed, 01 Jan 2025" = false
  /\ fst (checkIfTimePassed "Wed, 01 Jan 2025" Scenario.state_empty) = Returns SUCCESS
  /\ exact_layout " Wed, 01 Jan 2025 00:00:00" = false
  /\ fst (checkIfTimePassed " Wed, 01 Jan 2025 00:00:00" Scenario.state_empty)
     = Returns SUCCESS.
Proof. repeat split; vm_compute; reflexivity. Qed.

(** C7 (amended): [checkIfTimePassed] never lets an exception escape and
    returns [FAILURE_TO_PARSE] exactly when the extraction by
    [std::get_time] with the fixed format fails on the text,
    [TIME_UNIT_PASSED] when the parsed instant is at or before the clock
    value, [SUCCESS] when it is strictly after; a second call with the
    same text on the same clock value has the same verdict, and neither
    the cache nor the trace is touched. *)
Theorem checkIfTimePassed_verdict :
  forall (P : Platform) (httpTime : string) (st st' : St),
    let now := time (ticks st) in
    let r := fst (checkIfTimePassed httpTime st) in
    r = Returns (classify (parsed_instant httpTime) now)
    /\ (parsed_instant httpTime = None -> r = Returns FAILURE_TO_PARSE)
    /\ (forall t, parsed_instant httpTime = Some t -> (t <= now)%Z ->
                  r = Returns TIME_UNIT_PASSED)
    /\ (forall t, parsed_instant httpTime = Some t -> (now < t)%Z ->
                  r = Returns SUCCESS)
    /\ (time (ticks st') = now -> fst (checkIfTimePassed httpTime st') = r)
    /\ cache (snd (checkIfTimePassed httpTime st)) = cache st
    /\ trace (snd (checkIfTimePassed httpTime st)) = trace st
    /\ (r = Returns FAILURE_TO_PARSE -> parsed_instant httpTime = None).
Proof.
  intros P httpTime st st' now r. subst now r.
  rewrite !checkIfTimePassed_run. simpl.
  repeat split.
  - intros ->. reflexivity.
  - intros t -> H. simpl. destruct (Z.leb_spec t (time (ticks st))); [reflexivity | lia].
  - intros t -> H. simpl. destruct (Z.leb_spec t (time (ticks st))); [lia | reflexivity].
  - intros ->. reflexivity.
  - destruct (parses httpTime); reflexivity.
  - destruct (parses httpTime); reflexivity.
  - destruct (parsed_instant httpTime) as [t|]; [|reflexivity]. simpl.
    destruct (t <=? time (ticks st))%Z; discriminate.
Qed.

Lemma checkIfTimePassed_verdict_witness :
  let P := Reference.platform Scenario.origin_dated in
  fst (checkIfTimePassed "not a date" Scenario.state_empty) = Returns FAILURE_TO_PARSE
  /\ fst (checkIfTimePassed Scenario.date_2023 Scenario.state_empty)
     = Returns TIME_UNIT_PASSED
  /\ fst (checkIfTimePassed Scenario.date_2025 Scenario.state_empty) = Returns SUCCESS
  /\ fst (checkIfTimePassed Scenario.date_2025 Scenario.state_with_entry)
     = fst (checkIfTimePassed Scenario.date_2025 Scenario.state_empty).
Proof.
  intros P.
  pose proof (checkIfTimePassed_verdict P "not a date"
                Scenario.state_empty Scenario.state_empty) as [_ [F _]].
  pose proof (checkIfTimePassed_verdict P Scenario.date_2023
                Scenario.state_empty Scenario.state_empty) as [_ [_ [T _]]].
  pose proof (checkIfTimePassed_verdict P Scenario.date_2025
                Scenario.state_empty Scenario.state_with_entry) as [_ [_ [_ [S [I _]]]]].
  split; [|split; [|split]].
  - apply F. reflexivity.
  - apply (T 1703980800%Z); [reflexivity | vm_compute; discriminate].
  - apply (S 1735689600%Z); [reflexivity | vm_compute; reflexivity].
  - apply I. reflexivity.
Defined.

(* ------------------------------------------------------------------ *)
(** * The LRU cache *)

Section Cache.

Implicit Types (l : list (string * httpHeader)) (c : LRUCache).

Lemma distinct_NoDup (ks : list string) : distinct ks = true -> NoDup ks.
Proof.
  induction ks as [|k ks IH]; simpl; intros H; constructor.
  - apply andb_prop in H as [H _]. intros I.
    apply negb_true_iff in H.
    assert (existsb (String.eqb k) ks = true); [|congruence].
    apply existsb_exists. exists k. split; [exact I | apply String.eqb_refl].
  - apply IH. now apply andb_prop in H as [_ H].
Qed.

Lemma lookup_None l key : lookup key l = None <-> ~ In key (map fst l).
Proof.
  induction l as [|[k e] l IH]; simpl; [tauto|].
  destruct (String.eqb_spec k key) as [->|N].
  - split; [discriminate | intros H; exfalso; apply H; now left].
  - rewrite IH. tauto.
Qed.

Lemma contains_In c key : contains key c = true <-> In key (keys c).
Proof.
  unfold contains, keys. pose proof (lookup_None (order c) key) as H.
  destruct (lookup key (order c)).
  - split; [intros _ | reflexivity].
    destruct (in_dec string_dec key (map fst (order c))) as [I|I]; [exact I|].
    apply H in I. discriminate.
  - split; [discriminate|]. intros I. exfalso. now apply H.
Qed.

Lemma contains_false c key : contains key c = false <-> ~ In key (keys c).
Proof.
  rewrite <- contains_In. destruct (contains key c); split; congruence.
Qed.

Lemma remove_key_notin l key : ~ In key (map fst l) -> remove_key key l = l.
Proof.
  induction l as [|[k e] l IH]; simpl; [reflexivity|]. intros H.
  destruct (String.eqb_spec k key) as [->|N]; [exfalso; apply H; now left|].
  rewrite IH; [reflexivity | tauto].
Qed.

Lemma remove_key_In l key k :
  In k (map fst (remove_key key l)) <-> In k (map fst l) /\ k <> key.
Proof.
  induction l as [|[k' e] l IH]; simpl; [tauto|].
  destruct (String.eqb_spec k' key) as [->|N]; simpl; rewrite IH.
  - split; [tauto|]. intros [[->|H] N]; [congruence | tauto].
  - split; [intros [->|[H1 H2]]; tauto|]. tauto.
Qed.

Lemma remove_key_NoDup l key :
  NoDup (map fst l) -> NoDup (map fst (remove_key key l)).
Proof.
  induction l as [|[k e] l IH]; simpl; intros H; [constructor|].
  inversion H as [|? ? H1 H2]; subst.
  destruct (String.eqb k key); [now apply IH|].
  simpl. constructor; [|now apply IH].
  rewrite remove_key_In. tauto.
Qed.

Lemma remove_key_length l key : List.length (remove_key key l) <= List.length l.
Proof.
  induction l as [|[k e] l IH]; simpl; [lia|].
  destruct (String.eqb k key); simpl; lia.
Qed.

Lemma remove_key_length_found l key e :
  lookup key l = Some e -> S (List.length (remove_key key l)) <= List.length l.
Proof.
  induction l as [|[k e'] l IH]; simpl; [discriminate|].
  destruct (String.eqb k key).
  - intros _. pose proof (remove_key_length l key). lia.
  - intros H. apply IH in H. simpl. lia.
Qed.

Lemma removelast_NoDup {A : Type} (xs : list A) : NoDup xs -> NoDup (removelast xs).
Proof.
  destruct xs as [|x xs]; [intros; constructor|]. intros H.
  assert (N : x :: xs <> []) by discriminate.
  rewrite (app_removelast_last x N) in H.
  now apply NoDup_app_remove_r in H.
Qed.

Lemma In_firstn {A : Type} (n : nat) (xs : list A) (x : A) :
  In x (firstn n xs) -> In x xs.
Proof.
  intros I. rewrite <- (firstn_skipn n xs). apply in_or_app. now left.
Qed.

Lemma removelast_length {A : Type} (xs : list A) :
  List.length (removelast xs) = List.length xs - 1.
Proof.
  induction xs as [|x [|y xs] IH]; simpl in *; try reflexivity. rewrite IH. lia.
Qed.

Lemma map_removelast {A B : Type} (f : A -> B) (xs : list A) :
  map f (removelast xs) = removelast (map f xs).
Proof.
  induction xs as [|x [|y xs] IH]; simpl in *; try reflexivity. now rewrite IH.
Qed.

Lemma well_formed_new (n : nat) : well_formed (LRUCache_new n).
Proof. split; simpl; [constructor | unfold size; simpl; lia]. Qed.

Lemma add_capacity c key e : capacity (add key e c) = capacity c.
Proof. unfold add. destruct (_ <? _)%nat; reflexivity. Qed.

Lemma fetch_capacity c key : capacity (snd (fetch key c)) = capacity c.
Proof. unfold fetch. destruct (lookup key (order c)); reflexivity. Qed.

Lemma add_well_formed c key e : well_formed c -> well_formed (add key e c).
Proof.
  intros [N S]. unfold well_formed, add, keys, size in *.
  assert (N' : NoDup (map fst ((key, e) :: remove_key key (order c)))).
  { simpl. constructor; [|now apply remove_key_NoDup].
    rewrite remove_key_In. tauto. }
  pose proof (remove_key_length (order c) key) as L.
  destruct (Nat.ltb_spec (capacity c) (List.length ((key, e) :: remove_key key (order c))))
    as [H|H]; cbn [capacity order].
  - split.
    + rewrite map_removelast. now apply removelast_NoDup.
    + rewrite removelast_length. simpl in *. lia.
  - split; [exact N' | exact H].
Qed.

Lemma fetch_well_formed c key : well_formed c -> well_formed (snd (fetch key c)).
Proof.
  intros [N S]. unfold fetch. destruct (lookup key (order c)) as [e|] eqn:E; simpl.
  - unfold well_formed, keys, size in *. simpl. split.
    + constructor; [|now apply remove_key_NoDup]. rewrite remove_key_In. tauto.
    + apply remove_key_length_found in E. lia.
  - now split.
Qed.

Lemma run_ops_well_formed (ops : list cache_op) c :
  well_formed c ->
  well_formed (run_ops c ops) /\ capacity (run_ops c ops) = capacity c.
Proof.
  revert c; induction ops as [|o ops IH]; intros c W; simpl; [now split|].
  destruct o as [key|key e]; simpl.
  - destruct (IH (snd (fetch key c)) (fetch_well_formed c key W)) as [W' C'].
    split; [exact W'|]. now rewrite C', fetch_capacity.
  - destruct (IH (add key e c) (add_well_formed c key e W)) as [W' C'].
    split; [exact W'|]. now rewrite C', add_capacity.
Qed.

(** [add] promotes its key and stores its entry. *)
Lemma add_most_recent c key e :
  1 <= capacity c ->
  most_recent (add key e c) = Some key /\ lookup key (order (add key e c)) = Some e.
Proof.
  intros C. unfold add, most_recent, keys.
  destruct (Nat.ltb_spec (capacity c) (List.length ((key, e) :: remove_key key (order c))))
    as [H|H]; cbn [order].
  - destruct (remove_key key (order c)) as [|p r] eqn:R; [simpl in H; lia|].
    simpl. rewrite String.eqb_refl. now split.
  - simpl. rewrite String.eqb_refl. now split.
Qed.

Lemma fetch_most_recent c key e c' :
  fetch key c = (Returns e, c') ->
  most_recent c' = Some key /\ lookup key (order c) = Some e
  /\ keys c' = key :: map fst (remove_key key (order c)).
Proof.
  unfold fetch. destruct (lookup key (order c)) as [e0|]; [|discriminate].
  intros [= <- <-]. repeat split.
Qed.

Lemma fetch_miss c key :
  contains key c = false ->
  fetch key c = (Throws (runtime_error "Key not found in cache"), c).
Proof.
  unfold contains, fetch. destruct (lookup key (order c)); [discriminate | reflexivity].
Qed.

(** An [add] of a new key to a full cache drops exactly the last key of
    the recency order. *)
Lemma add_evicts c key e :
  well_formed c -> 1 <= capacity c ->
  contains key c = false -> size c = capacity c ->
  exists lru,
    least_recent c = Some lru
    /\ keys (add key e c) = key :: removelast (keys c)
    /\ contains lru (add key e c) = false
    /\ size (add key e c) = capacity c.
Proof.
  intros [N _] C M F. apply contains_false in M.
  unfold least_recent, size, keys in *.
  assert (R : remove_key key (order c) = order c) by now apply remove_key_notin.
  assert (A : add key e c = mkLRUCache (capacity c) ((key, e) :: removelast (order c))).
  { unfold add. rewrite R.
    destruct (Nat.ltb_spec (capacity c) (List.length ((key, e) :: order c))) as [H|H];
      [|simpl in H; lia].
    destruct (order c) as [|p r]; [simpl in F; lia | reflexivity]. }
  rewrite A. cbn [order].
  destruct (order c) as [|[k0 e0] r] eqn:O; [simpl in F; lia|].
  cbn [map fst] in *. exists (last (map fst r) k0). split; [reflexivity|].
  split; [now rewrite map_removelast|].
  split.
  - apply contains_false. unfold keys. cbn [order map fst].
    rewrite map_removelast. cbn [map fst].
    assert (NE : k0 :: map fst r <> []) by discriminate.
    pose proof (app_removelast_last k0 NE) as D.
    assert (LL : last (k0 :: map fst r) k0 = last (map fst r) k0).
    { destruct (map fst r); reflexivity. }
    rewrite LL in D. intros [I|I].
    + apply M. rewrite I. rewrite D at 1. apply in_or_app. right. now left.
    + rewrite D in N. apply NoDup_remove_2 in N. apply N.
      rewrite app_nil_r. exact I.
  - cbn [List.length]. rewrite removelast_length. simpl in *. lia.
Qed.

Lemma add_all_snoc c l key e :
  add_all c (l ++ [(key, e)]) = add key e (add_all c l).
Proof. unfold add_all. now rewrite fold_left_app. Qed.

(** Distinct keys added to an empty cache: the order is the reversed
    insertion sequence, cut to the capacity. *)
Lemma add_all_distinct (n : nat) l :
  NoDup (map fst l) ->
  add_all (LRUCache_new (S n)) l = mkLRUCache (S n) (firstn (S n) (rev l)).
Proof.
  induction l as [|[key e] l IH] using rev_ind; intros N; [reflexivity|].
  rewrite map_app in N. simpl in N.
  assert (Nl : NoDup (map fst l)) by now apply NoDup_app_remove_r in N.
  assert (K : ~ In key (map fst l)).
  { apply NoDup_remove_2 in N. now rewrite app_nil_r in N. }
  rewrite add_all_snoc, (IH Nl), rev_app_distr.
  change (rev [(key, e)] ++ rev l)%list with ((key, e) :: rev l). rewrite firstn_cons.
  assert (K' : ~ In key (map fst (firstn (S n) (rev l)))).
  { intros I. apply K. rewrite <- firstn_map in I.
    rewrite map_rev in I. apply in_rev. apply (In_firstn (S n)). exact I. }
  assert (FL : List.length (firstn (S n) (rev l)) = Nat.min (S n) (List.length l)).
  { now rewrite length_firstn, length_rev. }
  unfold add. cbn [order capacity]. rewrite (remove_key_notin _ _ K').
  cbn [List.length]. rewrite FL.
  destruct (Nat.ltb_spec (S n) (S (Nat.min (S n) (List.length l)))) as [H|H].
  - f_equal. assert (L : n < List.length (rev l)) by (rewrite length_rev; lia).
    rewrite <- (removelast_firstn _ L).
    destruct (firstn (S n) (rev l)) eqn:E; [|reflexivity].
    cbn [List.length] in FL. lia.
  - f_equal. f_equal.
    rewrite !firstn_all2; [reflexivity | rewrite length_rev; lia | rewrite length_rev; lia].
Qed.

End Cache.

Lemma add_all_eleven (first : string * httpHeader) (rest : list (string * httpHeader)) :
  NoDup (map fst (first :: rest)) ->
  List.length rest = 10 ->
  order (add_all (LRUCache_new 10) (first :: rest)) = rev rest.
Proof.
  intros N L. rewrite (add_all_distinct 9 _ N). cbn [order rev].
  rewrite firstn_app, length_rev, L.
  rewrite (firstn_all2 (n := 10) (rev rest)) by (rewrite length_rev; lia).
  replace (10 - 10) with 0 by reflexivity. rewrite firstn_O. apply app_nil_r.
Qed.

(** C4: on a cache of capacity 10, after any sequence of [fetch] and
    [add], at most 10 keys are resident; an [add] and a [fetch] that hits
    leave their key most recently used; an [add] of a new key to the full
    cache drops exactly the least recently used key and keeps the others in
    their order; and after 11 distinct keys were added to the empty cache
    the first one is absent and the ten others are resident. *)
Theorem LRUCache_capacity_10 :
  forall (ops : list cache_op) (first : string * httpHeader)
         (rest : list (string * httpHeader)),
    let c := run_ops (LRUCache_new 10) ops in
    size c <= 10
    /\ NoDup (keys c)
    /\ (forall key e, most_recent (add key e c) = Some key)
    /\ (forall key e c', fetch key c = (Returns e, c') -> most_recent c' = Some key)
    /\ (forall key e,
           contains key c = false -> size c = 10 ->
           exists lru,
             least_recent c = Some lru
             /\ keys (add key e c) = key :: removelast (keys c)
             /\ contains lru (add key e c) = false)
    /\ (distinct (map fst (first :: rest)) = true ->
        List.length rest = 10 ->
        let c11 := add_all (LRUCache_new 10) (first :: rest) in
        size c11 = 10
        /\ contains (fst first) c11 = false
        /\ forall k, In k (map fst rest) -> contains k c11 = true).
Proof.
  intros ops first rest c.
  destruct (run_ops_well_formed ops (LRUCache_new 10) (well_formed_new 10)) as [W C].
  fold c in W, C. simpl in C.
  split; [destruct W as [_ S]; lia|].
  split; [exact (proj1 W)|].
  split; [intros key e; apply add_most_recent; lia|].
  split; [intros key e c' F; now apply fetch_most_recent in F|].
  split.
  - intros key e M F.
    destruct (add_evicts c key e W) as [lru [H1 [H2 [H3 _]]]]; try lia; try assumption.
    exists lru. now repeat split.
  - intros D L c11. apply distinct_NoDup in D.
    pose proof (add_all_eleven first rest D L) as O. fold c11 in O.
    split; [unfold size; rewrite O, length_rev; exact L|].
    split.
    + apply contains_false. unfold keys. rewrite O, map_rev. rewrite <- in_rev.
      simpl in D. now inversion D.
    + intros k I. apply contains_In. unfold keys. rewrite O, map_rev.
      now apply in_rev in I.
Qed.

Lemma LRUCache_capacity_10_witness :
  let c11 := add_all (LRUCache_new 10) Scenario.eleven_keys in
  size c11 = 10 /\ contains "k01" c11 = false /\ contains "k11" c11 = true.
Proof.
  intros c11.
  destruct (LRUCache_capacity_10 [] (hd (EmptyString, httpHeader_default) Scenario.eleven_keys)
                                 (tl Scenario.eleven_keys))
    as [_ [_ [_ [_ [_ H]]]]].
  destruct (H eq_refl eq_refl) as [S [A R]].
  split; [exact S|]. split; [exact A|].
  apply R. simpl. tauto.
Defined.

(* ------------------------------------------------------------------ *)
(** * The network exchanges and the cache front end *)

Section Proxy.

Context {P : Platform}.

Lemma connectToServer_run (hostName port : string) (st : St) :
  connectToServer hostName port st
  = (Returns (connect_result hostName port),
     mkSt (cache st) (trace st ++ [EvConnect hostName (connect_result hostName port)])
          (ticks st)).
Proof.
  unfold connectToServer, connect_result.
  destruct (getaddrinfo hostName port) as [status server_info]. reflexivity.
Qed.

Lemma send_run (fd : Z) (bytes : string) (st : St) :
  send_ fd bytes st
  = (Returns (send fd bytes), mkSt (cache st) (trace st ++ [EvSend fd bytes]) (ticks st)).
Proof. reflexivity. Qed.

Lemma sendIfModifiedSinceRequest_run (date : string) (header : httpHeader) (st : St) :
  sendIfModifiedSinceRequest date header st
  = (Returns (fst (conditional_exchange date header)),
     mkSt (cache st) (trace st ++ snd (conditional_exchange date header)) (ticks st)).
Proof.
  unfold sendIfModifiedSinceRequest, conditional_exchange, bind.
  rewrite connectToServer_run.
  destruct (connect_result (hostName header) "80" =? -1)%Z; [reflexivity|].
  rewrite send_run. cbn [cache trace ticks].
  destruct (send _ _ =? -1)%Z; unfold ret; cbn [fst snd];
    rewrite <- app_assoc; reflexivity.
Qed.

(** The loop neither throws nor touches cache and trace, and selects by
    the spec's cascade over the header it is given. *)
Lemma cascade_loop_run (header : httpHeader) (st : St) :
  exists n : nat,
    cascade_loop 4 1 header false EmptyString st
    = (Returns match select_date (time (ticks st)) header with
               | Some date => (true, date)
               | None => (false, EmptyString)
               end,
       mkSt (cache st) (trace st) n).
Proof.
  unfold select_date, cascade_loop, cascade_switch, bind.
  cbn [Z.leb Z.eqb Z.add Z.compare Pos.compare Pos.compare_cont Pos.eqb Pos.add Pos.succ].
  rewrite checkIfTimePassed_run.
  destruct (retDateParse_eqb (classify (parsed_instant (expires header)) _) SUCCESS).
  - unfold ret. destruct (parses (expires header)); destruct st; eexists; reflexivity.
  - unfold ret at 1.
    set (st1 := if parses (expires header) then _ else st).
    assert (E1 : cache st1 = cache st /\ trace st1 = trace st).
    { subst st1. destruct (parses (expires header)); split; reflexivity. }
    destruct E1 as [C1 T1]. clearbody st1.
    destruct st1 as [c1 t1 k1]. cbn [cache trace ticks] in C1, T1. subst c1 t1.
    rewrite checkIfTimePassed_run, classify_failure_iff. unfold parses.
    destruct (parsed_instant (lastModified header)) eqn:E2; cbn [negb].
    + unfold ret. eexists. reflexivity.
    + unfold ret at 1. cbv beta iota.
      rewrite checkIfTimePassed_run, classify_failure_iff. unfold parses.
      destruct (parsed_instant (lastAccessTime header)) eqn:E3; cbn [negb];
        unfold ret; eexists; reflexivity.
Qed.

Lemma cascade_loop_done (fuel : nat) (priority : Z) (header : httpHeader)
      (exitLoop : bool) (requestDate : string) (st : St) :
  (3 < priority)%Z ->
  cascade_loop fuel priority header exitLoop requestDate st
  = (Returns (exitLoop, requestDate), st).
Proof.
  intros H. destruct fuel; [reflexivity|]. cbn [cascade_loop].
  destruct (Z.leb_spec priority 3); [lia | reflexivity].
Qed.

(** Three iterations are enough: more fuel changes nothing. *)
Lemma cascade_loop_fuel (n : nat) (header : httpHeader) (st : St) :
  cascade_loop (3 + n) 1 header false EmptyString st
  = cascade_loop 3 1 header false EmptyString st.
Proof.
  cbn [Nat.add cascade_loop]. unfold bind.
  cbn [Z.leb Z.add Z.compare Pos.compare Pos.compare_cont Pos.add Pos.succ].
  destruct (cascade_switch 1 header false EmptyString st) as [[[[|] d1]|e1] st1];
    try reflexivity.
  destruct (cascade_switch 2 header false d1 st1) as [[[[|] d2]|e2] st2];
    try reflexivity.
  destruct (cascade_switch 3 header false d2 st2) as [[[[|] d3]|e3] st3];
    try reflexivity.
  rewrite cascade_loop_done by lia. reflexivity.
Qed.

Lemma handleCache_miss (header : httpHeader) (st : St) :
  let key := hostName header ++ filePath header in
  contains key (cache st) = false ->
  handleCache header st
  = (Returns header,
     mkSt (add key header (cache st))
          (trace st ++ [EvCacheFetch key; EvCacheAdd key header]) (ticks st)).
Proof.
  intros key M. unfold handleCache, bind, catch_runtime_error, cache_fetch.
  fold key. rewrite (fetch_miss _ _ M).
  unfold cache_add, returned, ret. cbn [cache trace ticks].
  rewrite <- app_assoc. reflexivity.
Qed.

Lemma conditional_exchange_events (date : string) (header : httpHeader) (c : LRUCache) :
  replay_adds c (snd (conditional_exchange date header)) = c
  /\ cache_adds (snd (conditional_exchange date header)) = 0
  /\ connects (snd (conditional_exchange date header)) = 1.
Proof.
  unfold conditional_exchange.
  destruct (_ =? -1)%Z; [|destruct (_ =? -1)%Z]; repeat split.
Qed.

(** A hit: the entry is promoted by [fetch], the date is selected from the
    header [handleCache] was called with, and the rest is [revalidation]. *)
Lemma handleCache_hit (header fetched : httpHeader) (c1 : LRUCache) (st : St) :
  let key := hostName header ++ filePath header in
  fetch key (cache st) = (Returns fetched, c1) ->
  exists n : nat,
    handleCache header st
    = (Returns (fst (revalidation (time (ticks st)) header fetched)),
       mkSt (replay_adds c1 (snd (revalidation (time (ticks st)) header fetched)))
            (trace st ++ EvCacheFetch key
               :: snd (revalidation (time (ticks st)) header fetched))
            n).
Proof.
  intros key F. unfold handleCache, bind, catch_runtime_error, cache_fetch.
  fold key. rewrite F. unfold proceed, ret at 1.
  destruct (cascade_loop_run header (mkSt c1 (trace st ++ [EvCacheFetch key]) (ticks st)))
    as [n C].
  rewrite C. cbn [cache trace ticks]. unfold revalidation.
  destruct (select_date (time (ticks st)) header) as [date|]; cbn [negb].
  - rewrite sendIfModifiedSinceRequest_run. cbn [cache trace ticks].
    destruct (conditional_exchange_events date fetched c1) as [R _].
    destruct (conditional_exchange date fetched) as [newResponse evs]. cbn [fst snd] in *.
    rewrite <- app_assoc. cbn [app].
    destruct (empty newResponse); [exists n; cbn [fst snd]; rewrite R; reflexivity|].
    unfold main_header.
    destruct (parseHTTPresponse newResponse EmptyString EmptyString EmptyString)
      as [[date' lastModified'] expires'].
    destruct (empty (parseHTTPBody newResponse));
      [exists n; cbn [fst snd]; rewrite R; reflexivity|].
    exists n. unfold cache_add, ret. cbn [cache trace ticks fst snd].
    unfold replay_adds in *. rewrite fold_left_app, R. cbn [fold_left].
    rewrite <- app_assoc. reflexivity.
  - exists n. reflexivity.
Qed.

Lemma new_events_app (st st' : St) (evs : list event) :
  trace st' = (trace st ++ evs)%list -> new_events st st' = evs.
Proof.
  unfold new_events. intros ->. rewrite skipn_app, skipn_all, Nat.sub_diag. reflexivity.
Qed.

Lemma empty_true (s : string) : empty s = true <-> s = EmptyString.
Proof. destruct s; simpl; split; congruence. Qed.

(** The readable-descriptor step of [main] up to the call of
    [handleCache]: the return value of [parseHTTPrequest] plays no part. *)
Lemma main_client_run (descriptor recBytes : Z) (receiveBuf : string) (st : St)
      (ok : bool) (path host : string) :
  parseHTTPrequest (c_str receiveBuf) EmptyString EmptyString = (ok, path, host) ->
  (recBytes =? -1)%Z = false ->
  let fd := connect_result host "80" in
  let header := main_header host path (recv_loop (recv fd (full_request path host)) EmptyString) in
  main_client descriptor recBytes receiveBuf st
  = if (fd =? -1)%Z then
      (Returns tt,
       mkSt (cache st) (trace st ++ [EvConnect host fd; EvClose descriptor]) (ticks st))
    else if empty (body header) then
      (Returns tt,
       mkSt (cache st)
            (trace st ++ [EvConnect host fd; EvSend fd (full_request path host);
                          EvClose fd; EvClose descriptor])
            (ticks st))
    else
      (headerToReturn <- handleCache header ;;
       send_ descriptor (body headerToReturn) ;;;
       close descriptor)
        (mkSt (cache st)
              (trace st ++ [EvConnect host fd; EvSend fd (full_request path host);
                            EvClose fd])
              (ticks st)).
Proof.
  intros Q R fd header. unfold main_client. rewrite R, Q.
  unfold bind at 1. rewrite connectToServer_run. fold fd.
  destruct (fd =? -1)%Z.
  - unfold close, emit. cbn [cache trace ticks]. rewrite <- app_assoc. reflexivity.
  - unfold bind at 1. rewrite send_run. fold (full_request path host).
    unfold bind at 1. unfold close at 1, emit at 1. cbn [cache trace ticks].
    subst header. unfold main_header.
    destruct (parseHTTPresponse _ EmptyString EmptyString EmptyString)
      as [[date lastModified] expires].
    cbn [body]. rewrite <- !app_assoc. cbn [app].
    destruct (empty (parseHTTPBody _)).
    + unfold close, emit. cbn [cache trace ticks]. rewrite <- app_assoc. reflexivity.
    + reflexivity.
Qed.



(** [handleCache] always returns, and only appends to the trace. *)
Lemma handleCache_extends (header : httpHeader) (st : St) :
  exists (h : httpHeader) (c : LRUCache) (evs : list event) (n : nat),
    handleCache header st = (Returns h, mkSt c (trace st ++ evs) n).
Proof.
  destruct (lookup (hostName header ++ filePath header) (order (cache st)))
    as [fetched|] eqn:L.
  - assert (F : fetch (hostName header ++ filePath header) (cache st)
                = (Returns fetched,
                   mkLRUCache (capacity (cache st))
                              ((hostName header ++ filePath header, fetched)
                                 :: remove_key (hostName header ++ filePath header)
                                               (order (cache st))))).
    { unfold fetch. rewrite L. reflexivity. }
    destruct (handleCache_hit header fetched _ st F) as [n H].
    rewrite H. repeat eexists.
  - assert (M : contains (hostName header ++ filePath header) (cache st) = false).
    { unfold contains. now rewrite L. }
    rewrite (handleCache_miss header st M). repeat eexists.
Qed.



End Proxy.

(* ------------------------------------------------------------------ *)
(** * The claims on the cache front end and on [main] *)

(** The same situation reached through [main]: the origin's full reply
    carries no date header, the cached entry has a future [Expires], and
    the client is served the cached page after a single origin connection,
    the unconditional one. *)
Lemma main_undated_reply_serves_cached :
  let P := Reference.platform Scenario.origin_undated in
  new_events Scenario.state_with_entry
             (snd (main_client 4 (Scenario.read_count Scenario.request_x)
                               Scenario.request_x Scenario.state_with_entry))
  = [EvConnect "a.example" 7; EvSend 7 (full_request "/x" "a.example"); EvClose 7;
     EvCacheFetch "a.example/x"; EvSend 4 "page v0"; EvClose 4].
Proof. vm_compute. reflexivity. Qed.

(** C1: the code does not select from the hit entry.  The cache holds an
    entry for [a.example/x] whose [Expires] lies in the future, so the
    cascade over the entry selects that date; [handleCache] is called
    with a header without dates (what [main] forms from an undated reply),
    runs the cascade over that header, selects nothing, and returns the
    entry with no network event. *)
Theorem handleCache_cascade_over_argument :
  let P := Reference.platform Scenario.origin_dated in
  fetch "a.example/x" (cache Scenario.state_with_entry)
  = (Returns Scenario.cached_entry, Scenario.cache_with_entry)
  /\ select_date Scenario.noon_2024 Scenario.cached_entry = Some Scenario.date_2025
  /\ select_date Scenario.noon_2024 Scenario.undated_header = None
  /\ handleCache Scenario.undated_header Scenario.state_with_entry
     = (Returns Scenario.cached_entry,
        mkSt Scenario.cache_with_entry [EvCacheFetch "a.example/x"] 0).
Proof. repeat split; vm_compute; reflexivity. Qed.

(** C2: when the revalidation of a hit fails, in that the conditional
    request yields no bytes or the parsed body of its reply is empty,
    [handleCache] returns the entry [fetch] delivered, the cache is the
    one [fetch] left, and no [add] is among the events. *)
Theorem handleCache_failed_revalidation :
  forall (P : Platform) (header fetched : httpHeader) (c1 : LRUCache)
         (st st1 st2 : St) (date newResponse : string),
    let key := hostName header ++ filePath header in
    fetch key (cache st) = (Returns fetched, c1) ->
    cascade_loop 4 1 header false EmptyString
                 (mkSt c1 (trace st ++ [EvCacheFetch key]) (ticks st))
    = (Returns (true, date), st1) ->
    sendIfModifiedSinceRequest date fetched st1 = (Returns newResponse, st2) ->
    newResponse = EmptyString \/ parseHTTPBody newResponse = EmptyString ->
    handleCache header st = (Returns fetched, st2)
    /\ cache st2 = c1
    /\ cache_adds (new_events st st2) = 0.
Proof.
  intros P header fetched c1 st st1 st2 date newResponse key F C S E.
  split; [|split].
  - unfold handleCache, bind, catch_runtime_error, cache_fetch. fold key.
    rewrite F. unfold proceed, ret at 1. rewrite C. cbn [negb]. rewrite S.
    destruct E as [->| E]; [reflexivity|].
    destruct (empty newResponse); [reflexivity|].
    destruct (parseHTTPresponse newResponse EmptyString EmptyString EmptyString)
      as [[d l] x].
    rewrite E. reflexivity.
  - destruct (cascade_loop_run header (mkSt c1 (trace st ++ [EvCacheFetch key]) (ticks st)))
      as [n C'].
    rewrite C in C'. injection C' as _ ->.
    rewrite sendIfModifiedSinceRequest_run in S. injection S as _ <-. reflexivity.
  - destruct (cascade_loop_run header (mkSt c1 (trace st ++ [EvCacheFetch key]) (ticks st)))
      as [n C'].
    rewrite C in C'. injection C' as _ ->.
    rewrite sendIfModifiedSinceRequest_run in S. injection S as _ <-.
    cbn [cache trace ticks].
    rewrite (new_events_app st _ (EvCacheFetch key :: snd (conditional_exchange date fetched))).
    + destruct (conditional_exchange_events date fetched c1) as [_ [A _]]. exact A.
    + cbn [trace]. rewrite <- app_assoc. reflexivity.
Qed.

Lemma handleCache_failed_revalidation_witness :
  let P := Reference.platform Scenario.origin_not_modified in
  fst (handleCache Scenario.dated_header Scenario.state_with_entry)
  = Returns Scenario.cached_entry
  /\ cache (snd (handleCache Scenario.dated_header Scenario.state_with_entry))
     = Scenario.cache_with_entry.
Proof.
  intros P.
  pose (st1 := mkSt Scenario.cache_with_entry [EvCacheFetch "a.example/x"] 1).
  pose (r := sendIfModifiedSinceRequest Scenario.date_2025 Scenario.cached_entry st1).
  destruct (handleCache_failed_revalidation
              P Scenario.dated_header Scenario.cached_entry Scenario.cache_with_entry
              Scenario.state_with_entry st1 (snd r) Scenario.date_2025
              ("HTTP/1.0 304 Not Modified" ++ CRLF ++ CRLF))
    as [H [C _]].
  - vm_compute. reflexivity.
  - vm_compute. reflexivity.
  - vm_compute. reflexivity.
  - right. vm_compute. reflexivity.
  - rewrite H. split; [reflexivity | exact C].
Defined.




(** C6: the code goes on after a request that does not match.  A [POST]
    request makes [parseHTTPrequest] return false and leave path and host
    empty; on every platform [main] then calls [connectToServer] for the
    empty host name, and where that name resolves it sends a request to
    the origin, stores the reply and serves it. *)
Theorem main_ignores_parse_failure :
  parseHTTPrequest (c_str Scenario.request_post) EmptyString EmptyString
  = (false, EmptyString, EmptyString)
  /\ (forall (P : Platform) (descriptor : Z) (st : St),
         exists rest : list event,
           new_events st (snd (main_client descriptor
                                           (Scenario.read_count Scenario.request_post)
                                           Scenario.request_post st))
           = EvConnect EmptyString (connect_result EmptyString "80") :: rest)
  /\ (let P := Reference.platform Scenario.origin_any in
      new_events Scenario.state_empty
                 (snd (main_client 4 (Scenario.read_count Scenario.request_post)
                                   Scenario.request_post Scenario.state_empty))
      = [EvConnect EmptyString 9; EvSend 9 (full_request EmptyString EmptyString);
         EvClose 9; EvCacheFetch EmptyString;
         EvCacheAdd EmptyString
                    (mkHeader EmptyString EmptyString Scenario.date_2024
                              EmptyString Scenario.date_2025 "page v1");
         EvSend 4 "page v1"; EvClose 4]).
Proof.
  split; [vm_compute; reflexivity|]. split; [|vm_compute; reflexivity].
  intros P descriptor st.
  assert (Q : parseHTTPrequest (c_str Scenario.request_post) EmptyString EmptyString
              = (false, EmptyString, EmptyString)) by (vm_compute; reflexivity).
  assert (R : (Scenario.read_count Scenario.request_post =? -1)%Z = false)
    by (vm_compute; reflexivity).
  pose proof (main_client_run descriptor _ _ st _ _ _ Q R) as E.
  cbv zeta in E. rewrite E. clear E.
  set (fd := connect_result EmptyString "80").
  set (header := main_header _ _ _).
  destruct (fd =? -1)%Z; [eexists; apply new_events_app; reflexivity|].
  destruct (empty (body header)); [eexists; apply new_events_app; reflexivity|].
  unfold bind.
  match goal with
  | |- context [handleCache header ?s0] =>
      destruct (handleCache_extends header s0) as [h [c [evs [n H]]]]; rewrite H
  end.
  eexists. apply new_events_app.
  unfold send_, close, emit, bind, ret. cbn [snd trace cache ticks].
  rewrite <- !app_assoc. reflexivity.
Qed.

(* ------------------------------------------------------------------ *)
(** * C strings and the request buffers *)

Lemma all_chars_app (p : ascii -> bool) (a b : string) :
  all_chars p (a ++ b) = all_chars p a && all_chars p b.
Proof.
  induction a as [|c a IH]; simpl; [reflexivity|].
  now rewrite IH, andb_assoc.
Qed.

Lemma all_chars_take (p : ascii -> bool) (n : nat) (s : string) :
  all_chars p s = true -> all_chars p (take n s) = true.
Proof.
  revert s; induction n as [|n IH]; intros [|c s]; simpl; try reflexivity.
  intros H. apply andb_prop in H as [H1 H2]. now rewrite H1, IH.
Qed.

Lemma no_nul_c_str (s : string) : no_nul s = true -> c_str s = s.
Proof.
  unfold no_nul. induction s as [|c s IH]; simpl; [reflexivity|].
  intros H. apply andb_prop in H as [H1 H2].
  apply negb_true_iff in H1. rewrite H1, IH by exact H2. reflexivity.
Qed.

Lemma c_str_no_nul (s : string) : no_nul (c_str s) = true.
Proof.
  unfold no_nul. induction s as [|c s IH]; simpl; [reflexivity|].
  destruct (Ascii.eqb c NUL) eqn:E; simpl; [reflexivity|]. now rewrite E, IH.
Qed.

Lemma c_str_idempotent (s : string) : c_str (c_str s) = c_str s.
Proof. apply no_nul_c_str, c_str_no_nul. Qed.

(** The C string in an array is what precedes the first NUL in it. *)
Lemma c_str_terminated (s t : string) :
  no_nul s = true -> c_str (s ++ String NUL t) = s.
Proof.
  unfold no_nul. induction s as [|c s IH]; simpl; [reflexivity|].
  intros H. apply andb_prop in H as [H1 H2].
  apply negb_true_iff in H1. rewrite H1, IH by exact H2. reflexivity.
Qed.

Lemma length_snprintf (size : nat) (fmt : string) (args : list string) :
  length (snprintf size fmt args) <= size - 1.
Proof. unfold snprintf. rewrite length_take. lia. Qed.

Lemma no_nul_conditional_request (date path host : string) :
  no_nul (conditional_request (c_str date) (c_str path) (c_str host)) = true.
Proof.
  unfold conditional_request, no_nul.
  repeat (rewrite all_chars_app; apply andb_true_intro; split);
    try reflexivity; apply c_str_no_nul.
Qed.

Lemma main_request_take (path host : string) :
  snprintf 512 main_request_format [path; host]
  = take 511 (request_text " " (c_str path) " " " " (c_str host) CRLF).
Proof. reflexivity. Qed.

Lemma length_request_text (ws1 path ws2 ws3 host rest : string) :
  length (request_text ws1 path ws2 ws3 host rest)
  = 20 + length ws1 + length path + length ws2 + length ws3 + length host
    + length rest.
Proof.
  unfold request_text, CRLF.
  repeat (rewrite length_append; simpl length). lia.
Qed.

Lemma no_nul_main_request (path host : string) :
  no_nul (request_text " " (c_str path) " " " " (c_str host) CRLF) = true.
Proof.
  unfold request_text, no_nul.
  repeat (rewrite all_chars_app; apply andb_true_intro; split);
    try reflexivity; apply c_str_no_nul.
Qed.

Lemma ifModReq_c_string (date : string) (header : httpHeader) :
  length (ifModReq date header) <= 255 /\ no_nul (ifModReq date header) = true.
Proof.
  split; [apply (length_snprintf 256)|].
  rewrite ifModReq_take. apply all_chars_take, no_nul_conditional_request.
Qed.

Lemma main_request_c_string (path host : string) :
  length (snprintf 512 main_request_format [path; host]) <= 511
  /\ no_nul (snprintf 512 main_request_format [path; host]) = true.
Proof.
  split; [apply (length_snprintf 512)|].
  rewrite main_request_take. apply all_chars_take, no_nul_main_request.
Qed.

(** X2: neither request buffer is overrun and both hold C strings: the
    conditional request has at most 255 characters, the unconditional one
    at most 511, and neither holds a NUL, whatever the date, path and host. *)
Theorem request_buffers_fit :
  forall (date path host : string) (header : httpHeader),
    length (ifModReq date header) <= 255
    /\ no_nul (ifModReq date header) = true
    /\ length (snprintf 512 main_request_format [path; host]) <= 511
    /\ no_nul (snprintf 512 main_request_format [path; host]) = true.
Proof.
  intros date path host header.
  destruct (ifModReq_c_string date header) as [L1 N1].
  destruct (main_request_c_string path host) as [L2 N2].
  repeat split; assumption.
Qed.

(** X4: the unconditional request of [main] is
    [GET <path> HTTP/1.0\r\nHost: <host>\r\n\r\n] (path and host as C
    strings) whenever that text fits the buffer, that is when 25 plus the
    two lengths is at most 511. *)
Theorem main_request_layout :
  forall path host : string,
    25 + length (c_str path) + length (c_str host) <= 511 ->
    snprintf 512 main_request_format [path; host]
    = "GET " ++ c_str path ++ " HTTP/1.0" ++ CRLF
      ++ "Host: " ++ c_str host ++ CRLF ++ CRLF.
Proof.
  intros path host B. rewrite main_request_take.
  apply (take_all 511 (request_text " " (c_str path) " " " " (c_str host) CRLF)).
  rewrite length_request_text. simpl. lia.
Qed.

Lemma main_request_layout_witness :
  snprintf 512 main_request_format ["/x"; "a.example"]
  = "GET /x HTTP/1.0" ++ CRLF ++ "Host: a.example" ++ CRLF ++ CRLF.
Proof. apply (main_request_layout "/x" "a.example"). simpl. lia. Defined.

Section Buffers.

Context {P : Platform}.

Lemma length_stack_fill (from n : nat) : length (stack_fill from n) = n.
Proof. revert from; induction n as [|n IH]; intros from; simpl; [reflexivity | now rewrite IH]. Qed.

Lemma length_char_array (size : nat) (s : string) :
  length s < size -> length (char_array size s) = size.
Proof.
  intros H. unfold char_array. rewrite length_append. simpl.
  rewrite length_stack_fill. lia.
Qed.

End Buffers.

(** X3: what is sent to the origin is the whole array, not the request
    alone.  Every [send] of [sendIfModifiedSinceRequest] passes 256 bytes
    and the [send] [main] makes after a successful connection passes 512;
    the part before the first NUL is the request, the rest is whatever the
    stack held. *)
Theorem whole_buffers_are_sent :
  forall (P : Platform) (date : string) (header : httpHeader)
         (descriptor recBytes : Z) (receiveBuf : string) (st : St)
         (ok : bool) (path host : string),
    (forall (fd : Z) (bytes : string),
        In (EvSend fd bytes)
           (new_events st (snd (sendIfModifiedSinceRequest date header st))) ->
        length bytes = 256 /\ c_str bytes = ifModReq date header)
    /\ (parseHTTPrequest (c_str receiveBuf) EmptyString EmptyString = (ok, path, host) ->
        recBytes <> (-1)%Z ->
        connect_result host "80" <> (-1)%Z ->
        exists (bytes : string) (rest : list event),
          new_events st (snd (main_client descriptor recBytes receiveBuf st))
          = EvConnect host (connect_result host "80")
              :: EvSend (connect_result host "80") bytes :: rest
          /\ length bytes = 512
          /\ c_str bytes = snprintf 512 main_request_format [path; host]).
Proof.
  intros P date header descriptor recBytes receiveBuf st ok path host.
  destruct (ifModReq_c_string date header) as [L1 N1].
  destruct (main_request_c_string path host) as [L2 N2].
  split.
  - intros fd bytes I. rewrite sendIfModifiedSinceRequest_run in I. cbn [snd] in I.
    erewrite new_events_app in I by reflexivity.
    assert (B : bytes = char_array 256 (ifModReq date header)).
    { unfold conditional_exchange in I.
      destruct (_ =? -1)%Z; [|destruct (_ =? -1)%Z]; cbn [snd] in I;
        repeat (destruct I as [I|I]; [try discriminate I; injection I as _ <-; reflexivity|]);
        destruct I. }
    subst bytes. split; [apply length_char_array; lia | now apply c_str_terminated].
  - intros Q R C. apply Z.eqb_neq in R, C.
    pose proof (main_client_run descriptor recBytes receiveBuf st ok path host Q R) as E.
    cbv zeta in E. rewrite E, C. clear E.
    exists (full_request path host).
    assert (F : length (full_request path host) = 512
                /\ c_str (full_request path host)
                   = snprintf 512 main_request_format [path; host]).
    { split; [apply length_char_array; lia | now apply c_str_terminated]. }
    destruct (empty (body _)).
    + eexists. split; [apply new_events_app; reflexivity | exact F].
    + match goal with
      | |- context [bind (handleCache ?h) _ ?s0] =>
          unfold bind; destruct (handleCache_extends h s0) as [h' [c [evs [n H]]]];
          rewrite H
      end.
      eexists. split; [|exact F].
      apply new_events_app. unfold send_, close, emit, bind, ret.
      cbn [snd trace cache ticks]. rewrite <- !app_assoc. reflexivity.
Qed.

Lemma whole_buffers_are_sent_witness :
  let P := Reference.platform Scenario.origin_dated in
  exists (bytes : string) (rest : list event),
    new_events Scenario.state_empty
               (snd (main_client 4 (Scenario.read_count Scenario.request_x)
                                 Scenario.request_x Scenario.state_empty))
    = EvConnect "a.example" 7 :: EvSend 7 bytes :: rest
    /\ length bytes = 512.
Proof.
  intros P.
  destruct (whole_buffers_are_sent P Scenario.date_2025 Scenario.cached_entry 4%Z
                                   (Scenario.read_count Scenario.request_x)
                                   Scenario.request_x Scenario.state_empty
                                   true "/x" "a.example") as [_ H].
  destruct H as [bytes [rest [E [L _]]]].
  - vm_compute. reflexivity.
  - vm_compute. discriminate.
  - vm_compute. discriminate.
  - exists bytes, rest. split; [exact E | exact L].
Defined.

(* ------------------------------------------------------------------ *)
(** * The matcher on texts of known shape *)

Lemma push_all_Some (w b : string) : push_all w (Some b) = Some (b ++ w).
Proof.
  revert b; induction w as [|c w IH]; intros b; simpl.
  - now rewrite append_empty_r.
  - rewrite IH, append_assoc. reflexivity.
Qed.

Lemma push_all_None (w : string) : push_all w None = None.
Proof. induction w as [|c w IH]; simpl; [reflexivity | exact IH]. Qed.

Lemma match_class (cls : ascii -> bool) (re : regex) (c : ascii) (s : string)
      (bol : bool) (caps : list string) (cur : option string) :
  cls c = true ->
  match_here (RClass cls :: re) (String c s) bol caps cur
  = match_here re s false caps (push c cur).
Proof. intros H. simpl. now rewrite H. Qed.

Lemma match_star_cons (cls : ascii -> bool) (re : regex) (c : ascii) (s : string)
      (bol : bool) (caps : list string) (cur : option string) :
  match_here (RStar cls :: re) (String c s) bol caps cur
  = if cls c then
      match match_here (RStar cls :: re) s false caps (push c cur) with
      | Some r => Some r
      | None => match_here re (String c s) bol caps cur
      end
    else match_here re (String c s) bol caps cur.
Proof. reflexivity. Qed.

Lemma match_star_stop (cls : ascii -> bool) (re : regex) (s : string)
      (bol : bool) (caps : list string) (cur : option string) :
  stops cls s = true ->
  match_here (RStar cls :: re) s bol caps cur = match_here re s bol caps cur.
Proof.
  destruct s as [|c s]; [reflexivity|]. simpl stops. intros H.
  apply negb_true_iff in H. rewrite match_star_cons, H. reflexivity.
Qed.

(** A greedy star takes the whole run [w] when the text after it cannot
    extend the run and the rest of the pattern matches there. *)
Lemma match_star_run (cls : ascii -> bool) (re : regex) (w s : string)
      (caps r : list string) :
  all_chars cls w = true ->
  stops cls s = true ->
  forall (bol : bool) (cur : option string),
    (forall b, match_here re s b caps (push_all w cur) = Some r) ->
    match_here (RStar cls :: re) (w ++ s) bol caps cur = Some r.
Proof.
  intros A S. induction w as [|c w IH]; intros bol cur K.
  - simpl append. rewrite match_star_stop by exact S. apply K.
  - simpl in A. apply andb_prop in A as [A1 A2].
    change (String c w ++ s) with (String c (w ++ s)).
    rewrite match_star_cons, A1. rewrite (IH A2 false (push c cur)); [reflexivity|].
    exact K.
Qed.

Lemma match_lit (p : string) (re : regex) (s : string) (caps r : list string) :
  forall (bol : bool) (cur : option string),
    (forall b, match_here re s b caps (push_all p cur) = Some r) ->
    match_here (lit p ++ re)%list (p ++ s) bol caps cur = Some r.
Proof.
  induction p as [|c p IH]; intros bol cur K.
  - apply K.
  - change (match_here (RClass (Ascii.eqb c) :: (lit p ++ re)%list) (String c (p ++ s))
                       bol caps cur = Some r).
    rewrite match_class by apply Ascii.eqb_refl. apply IH. exact K.
Qed.

Lemma match_lit_mismatch (p : string) (re : regex) (s : string)
      (bol : bool) (caps : list string) (cur : option string) :
  starts_with p s = false -> match_here (lit p ++ re)%list s bol caps cur = None.
Proof.
  revert s bol cur; induction p as [|c p IH]; intros s bol cur H; [discriminate|].
  destruct s as [|d s]; [reflexivity|]. simpl in H.
  change (match_here (RClass (Ascii.eqb c) :: (lit p ++ re)%list) (String d s) bol caps cur
          = None).
  simpl. destruct (Ascii.eqb c d); [|reflexivity].
  apply IH. exact H.
Qed.

(** A pattern anchored with [^] matches nowhere but at the beginning. *)
Lemma search_anchored (re : regex) (s : string) :
  search_from (RBol :: re) s false = None.
Proof. induction s as [|c s IH]; simpl; [reflexivity | exact IH]. Qed.

Lemma regex_search_anchored (re : regex) (s : string) :
  regex_search s (RBol :: re) = match_here re s true [] None.
Proof.
  unfold regex_search. destruct s as [|c s]; simpl.
  - destruct (match_here re EmptyString true [] None); reflexivity.
  - destruct (match_here re (String c s) true [] None); [reflexivity|].
    apply search_anchored.
Qed.

(** The search passes over every position before the first occurrence of
    the literal the pattern begins with. *)
Lemma search_skip (p : string) (re : regex) (s : string) (n : nat) (r : list string) :
  find p s = Some n ->
  (forall b, match_here (lit p ++ re)%list (drop n s) b [] None = Some r) ->
  forall bol, search_from (lit p ++ re)%list s bol = Some r.
Proof.
  revert n; induction s as [|c s IH]; intros n F K bol.
  - simpl in F. destruct (starts_with p EmptyString); [|discriminate].
    injection F as <-. simpl drop in K. cbn [search_from]. now rewrite (K bol).
  - rewrite find_cons in F. destruct (starts_with p (String c s)) eqn:E.
    + injection F as <-. simpl drop in K. cbn [search_from]. now rewrite (K bol).
    + destruct (find p s) as [m|] eqn:F'; [|discriminate]. injection F as <-.
      cbn [search_from]. rewrite (match_lit_mismatch p re _ bol [] None E).
      apply (IH m eq_refl). exact K.
Qed.

Lemma match_lit_end (p s : string) (bol : bool) (caps : list string)
      (cur : option string) :
  match_here (lit p) (p ++ s) bol caps cur = Some caps.
Proof.
  rewrite <- (app_nil_r (lit p)). apply match_lit. reflexivity.
Qed.

Lemma match_plus_run (cls : ascii -> bool) (re : regex) (w s : string)
      (caps r : list string) :
  empty w = false ->
  all_chars cls w = true ->
  stops cls s = true ->
  forall (bol : bool) (cur : option string),
    (forall b, match_here re s b caps (push_all w cur) = Some r) ->
    match_here (plus cls ++ re)%list (w ++ s) bol caps cur = Some r.
Proof.
  intros E A S bol cur K. destruct w as [|c w]; [discriminate|].
  simpl in A. apply andb_prop in A as [A1 A2].
  change (match_here (RClass cls :: RStar cls :: re) (String c (w ++ s)) bol caps cur
          = Some r).
  rewrite match_class by exact A1.
  apply match_star_run; assumption.
Qed.

Lemma match_group_open (re : regex) (s : string) (bol : bool)
      (caps : list string) (cur : option string) :
  match_here ([RGroupOpen] ++ re)%list s bol caps cur
  = match_here re s bol caps (Some EmptyString).
Proof. reflexivity. Qed.

Lemma match_group_close (re : regex) (s : string) (bol : bool)
      (caps : list string) (b : string) :
  match_here ([RGroupClose] ++ re)%list s bol caps (Some b)
  = match_here re s bol (caps ++ [b]) None.
Proof. reflexivity. Qed.

(** A run of one class ends where a run of a disjoint class begins. *)
Lemma stops_app (p q : ascii -> bool) (w s : string) :
  (forall c, q c = true -> p c = false) ->
  empty w = false ->
  all_chars q w = true ->
  stops p (w ++ s) = true.
Proof.
  intros D E A. destruct w as [|c w]; [discriminate|].
  simpl in A. apply andb_prop in A as [A _]. simpl. now rewrite (D c A).
Qed.

Lemma space_not_non_space (c : ascii) : is_space c = true -> non_space c = false.
Proof. unfold non_space. intros ->. reflexivity. Qed.

Lemma non_space_not_space (c : ascii) : non_space c = true -> is_space c = false.
Proof. unfold non_space. now intros H%negb_true_iff. Qed.

Lemma regHTTP_matches (ws1 path ws2 ws3 host rest : string) :
  empty ws1 = false -> all_chars is_space ws1 = true ->
  empty path = false -> all_chars non_space path = true ->
  empty ws2 = false -> all_chars is_space ws2 = true ->
  all_chars is_space ws3 = true ->
  empty host = false -> all_chars non_space host = true ->
  regex_search (request_text ws1 path ws2 ws3 host rest) regHTTP
  = Some [path; host].
Proof.
  intros E1 A1 Ep Ap E2 A2 A3 Eh Ah.
  unfold regHTTP, request_text.
  change ([RBol] ++ ?re)%list with (RBol :: re).
  rewrite regex_search_anchored.
  apply match_lit; intros ?. cbn [push_all push option_map].
  apply match_plus_run; try assumption.
  { apply (stops_app is_space non_space); auto using non_space_not_space. }
  intros ?. rewrite push_all_None, match_group_open.
  apply match_plus_run; try assumption.
  { apply (stops_app non_space is_space); auto using space_not_non_space. }
  intros ?. rewrite push_all_Some. change (EmptyString ++ path) with path.
  rewrite match_group_close.
  apply match_plus_run; try assumption; [reflexivity|].
  intros ?. rewrite push_all_None.
  apply match_lit; intros ?. cbn [push_all push option_map].
  apply match_lit; intros ?. cbn [push_all push option_map CRLF].
  apply match_lit; intros ?. cbn [push_all push option_map].
  change ([RStar is_space] ++ ?re)%list with (RStar is_space :: re).
  apply match_star_run; try assumption.
  { apply (stops_app is_space non_space); auto using non_space_not_space. }
  intros ?. rewrite push_all_None, match_group_open.
  apply match_plus_run; try assumption; [reflexivity|].
  intros ?. rewrite push_all_Some. change (EmptyString ++ host) with host.
  rewrite match_group_close.
  apply match_lit_end.
Qed.

(** X5: a request of the supported shape is accepted, with any white
    space where the pattern allows it and anything after the host line,
    and path and host come back as given (as C strings). *)
Theorem parseHTTPrequest_accepts :
  forall ws1 path ws2 ws3 host rest path0 host0 : string,
    empty ws1 = false -> all_chars is_space ws1 = true ->
    empty path = false -> all_chars non_space path = true ->
    empty ws2 = false -> all_chars is_space ws2 = true ->
    all_chars is_space ws3 = true ->
    empty host = false -> all_chars non_space host = true ->
    parseHTTPrequest (request_text ws1 path ws2 ws3 host rest) path0 host0
    = (true, c_str path, c_str host).
Proof.
  intros. unfold parseHTTPrequest. rewrite regHTTP_matches by assumption.
  reflexivity.
Qed.

Lemma parseHTTPrequest_accepts_witness :
  parseHTTPrequest (request_text "  " "/index.html" " " EmptyString "a.example"
                                 ("Accept: */*" ++ CRLF ++ CRLF))
                   EmptyString EmptyString
  = (true, "/index.html", "a.example").
Proof.
  apply (parseHTTPrequest_accepts "  " "/index.html" " " EmptyString "a.example");
    reflexivity.
Defined.

(** X6: a request that does not begin with [GET] is refused, and the
    caller's path and host are left as they were. *)
Theorem parseHTTPrequest_refuses :
  forall getRequest path0 host0 : string,
    starts_with "GET" getRequest = false ->
    parseHTTPrequest getRequest path0 host0 = (false, path0, host0).
Proof.
  intros getRequest path0 host0 H. unfold parseHTTPrequest, regHTTP.
  change ([RBol] ++ ?re)%list with (RBol :: re).
  rewrite regex_search_anchored, match_lit_mismatch by exact H. reflexivity.
Qed.

Lemma parseHTTPrequest_refuses_witness :
  parseHTTPrequest (" GET / HTTP/1.0" ++ CRLF ++ "Host: a.example" ++ CRLF)
                   "kept" "kept"
  = (false, "kept", "kept").
Proof. apply parseHTTPrequest_refuses. reflexivity. Defined.

(** X7: the request [main] writes for a path and a host is one
    [parseHTTPrequest] accepts, and it gives the same path and host back:
    for non-empty path and host without white space and NUL that fit the
    buffer. *)
Theorem request_format_parse_roundtrip :
  forall path host path0 host0 : string,
    empty path = false -> all_chars non_space path = true -> no_nul path = true ->
    empty host = false -> all_chars non_space host = true -> no_nul host = true ->
    25 + length path + length host <= 511 ->
    parseHTTPrequest (snprintf 512 main_request_format [path; host]) path0 host0
    = (true, path, host).
Proof.
  intros path host path0 host0 Ep Ap Np Eh Ah Nh B.
  rewrite main_request_take, !(no_nul_c_str _ Np), !(no_nul_c_str _ Nh).
  rewrite take_all by (rewrite length_request_text; simpl; lia).
  unfold parseHTTPrequest. rewrite regHTTP_matches by (assumption || reflexivity).
  unfold str. cbn [nth Nat.sub].
  now rewrite (no_nul_c_str _ Np), (no_nul_c_str _ Nh).
Qed.

Lemma request_format_parse_roundtrip_witness :
  parseHTTPrequest (snprintf 512 main_request_format ["/x"; "a.example"])
                   EmptyString EmptyString
  = (true, "/x", "a.example").
Proof.
  apply (request_format_parse_roundtrip "/x" "a.example");
    try reflexivity. simpl. lia.
Defined.

(* ------------------------------------------------------------------ *)
(** * Header values of a response *)

Lemma stops_value (v s : string) :
  empty v = false -> stops is_space v = true -> stops is_space (v ++ s) = true.
Proof. destruct v; [discriminate | intros _ H; exact H]. Qed.

(** The first occurrence of [name] in the text, followed by white space,
    a value on one line that begins with a visible character, and the
    line end: the search delivers that value. *)
Lemma header_regex_matches (name pre ws v rest : string) :
  find name (pre ++ name) = Some (length pre) ->
  all_chars is_space ws = true ->
  empty v = false -> stops is_space v = true ->
  all_chars any_char v = true ->
  regex_search (pre ++ name ++ ws ++ v ++ CRLF ++ rest) (header_regex name)
  = Some [v].
Proof.
  intros F W E S A. unfold regex_search, header_regex.
  apply (search_skip name _ _ (length pre)).
  - apply find_app_first. exact F.
  - intros b. replace (length pre) with (length pre + 0) by lia.
    rewrite drop_app_length. simpl drop.
    apply match_lit; intros ?. rewrite push_all_None.
    change ([RStar is_space; RGroupOpen; RStar any_char; RGroupClose] ++ lit CRLF)%list
      with (RStar is_space :: ([RGroupOpen] ++ RStar any_char
                                 :: ([RGroupClose] ++ lit CRLF)))%list.
    apply match_star_run; [exact W | now apply stops_value |].
    intros ?. rewrite push_all_None, match_group_open.
    apply match_star_run; [exact A | reflexivity |].
    intros ?. rewrite push_all_Some. change (EmptyString ++ v) with v.
    rewrite match_group_close. exact (match_lit_end CRLF rest _ [v] None).
Qed.

(** X8: when the first [Date:] and the first [Expires:] of a response are
    each followed by optional white space, a value on one line that begins
    with a visible character, and [\r\n], [parseHTTPresponse] delivers the
    two values (as C strings) in [date] and [expires], and leaves the
    caller's [lastModified] alone. *)
Theorem parseHTTPresponse_values :
  forall response pre1 ws1 v1 rest1 pre2 ws2 v2 rest2 date0 lastModified0 expires0,
    response = pre1 ++ "Date:" ++ ws1 ++ v1 ++ CRLF ++ rest1 ->
    find "Date:" (pre1 ++ "Date:") = Some (length pre1) ->
    all_chars is_space ws1 = true ->
    empty v1 = false -> stops is_space v1 = true -> all_chars any_char v1 = true ->
    response = pre2 ++ "Expires:" ++ ws2 ++ v2 ++ CRLF ++ rest2 ->
    find "Expires:" (pre2 ++ "Expires:") = Some (length pre2) ->
    all_chars is_space ws2 = true ->
    empty v2 = false -> stops is_space v2 = true -> all_chars any_char v2 = true ->
    parseHTTPresponse response date0 lastModified0 expires0
    = (c_str v1, lastModified0, c_str v2).
Proof.
  intros response pre1 ws1 v1 rest1 pre2 ws2 v2 rest2 d0 l0 e0
         R1 F1 W1 E1 S1 A1 R2 F2 W2 E2 S2 A2.
  unfold parseHTTPresponse.
  change regDate with (header_regex "Date:").
  change regExpires with (header_regex "Expires:").
  rewrite R1 at 1. rewrite (header_regex_matches "Date:") by assumption.
  rewrite R2. rewrite (header_regex_matches "Expires:") by assumption.
  reflexivity.
Qed.

Lemma parseHTTPresponse_values_witness :
  parseHTTPresponse (Scenario.reply_dated "page") "d" "l" "e"
  = (Scenario.date_2024, "l", Scenario.date_2025).
Proof.
  apply (parseHTTPresponse_values
           (Scenario.reply_dated "page")
           ("HTTP/1.0 200 OK" ++ CRLF) " " Scenario.date_2024
           ("Last-Modified: " ++ Scenario.date_2023 ++ CRLF
            ++ "Expires: " ++ Scenario.date_2025 ++ CRLF ++ CRLF ++ "page")
           ("HTTP/1.0 200 OK" ++ CRLF ++ "Date: " ++ Scenario.date_2024 ++ CRLF
            ++ "Last-Modified: " ++ Scenario.date_2023 ++ CRLF)
           " " Scenario.date_2025 (CRLF ++ "page"));
    reflexivity.
Defined.

(* ------------------------------------------------------------------ *)
(** * The origin connector *)

Lemma try_addresses_find (server_info : list addrinfo) :
  try_addresses server_info
  = match List.find usable server_info with
    | Some p => ai_socket p
    | None => (-1)%Z
    end.
Proof.
  induction server_info as [|p l IH]; [reflexivity|].
  simpl. unfold usable at 1.
  destruct (ai_socket p =? -1)%Z; [exact IH|].
  destruct (ai_connect p =? -1)%Z; [exact IH | reflexivity].
Qed.

(** X1: [connectToServer] returns -1 when resolution fails, otherwise
    the socket of the first candidate address for which [socket] and
    [connect] both succeed, and -1 when there is none; a descriptor it
    returns is never one whose [connect] failed.  It leaves the cache
    alone. *)
Theorem connectToServer_first_usable :
  forall (P : Platform) (hostName port : string) (st : St)
         (status : Z) (server_info : list addrinfo),
    getaddrinfo hostName port = (status, server_info) ->
    let sockFd :=
      if (status =? 0)%Z then
        match List.find usable server_info with
        | Some p => ai_socket p
        | None => (-1)%Z
        end
      else (-1)%Z in
    connectToServer hostName port st
    = (Returns sockFd,
       mkSt (cache st) (trace st ++ [EvConnect hostName sockFd]) (ticks st))
    /\ (sockFd <> (-1)%Z ->
        status = 0%Z
        /\ exists p, In p server_info /\ ai_socket p = sockFd
                     /\ ai_connect p <> (-1)%Z).
Proof.
  intros P hostName port st status server_info G sockFd. split.
  - unfold connectToServer. rewrite G, try_addresses_find. subst sockFd.
    destruct (status =? 0)%Z; reflexivity.
  - subst sockFd. destruct (Z.eqb_spec status 0) as [->|N]; [|congruence].
    destruct (List.find usable server_info) as [p|] eqn:F; [|congruence].
    intros _. split; [reflexivity|]. exists p.
    apply find_some in F as [I U]. unfold usable in U.
    apply andb_prop in U as [_ U]. apply negb_true_iff in U.
    repeat split; [exact I|]. now apply Z.eqb_neq.
Qed.

Lemma connectToServer_first_usable_witness :
  let P := Reference.platform Scenario.origin_dated in
  fst (connectToServer "a.example" "80" Scenario.state_empty) = Returns 7%Z
  /\ fst (connectToServer "b.example" "80" Scenario.state_empty) = Returns (-1)%Z.
Proof.
  intros P. split.
  - destruct (connectToServer_first_usable P "a.example" "80" Scenario.state_empty
                                           0%Z [mkAddrinfo 7 0] eq_refl) as [E _].
    rewrite E. reflexivity.
  - destruct (connectToServer_first_usable P "b.example" "80" Scenario.state_empty
                                           (-2)%Z [] eq_refl) as [E _].
    rewrite E. reflexivity.
Defined.

(** The receive loop appends each piece up to its first NUL. *)
Lemma recv_loop_fold (chunks : list string) (acc : string) :
  forallb (fun b => negb (empty b)) chunks = true ->
  recv_loop chunks acc = acc ++ fold_right append EmptyString (map c_str chunks).
Proof.
  revert acc; induction chunks as [|b chunks IH]; intros acc H; simpl.
  - now rewrite append_empty_r.
  - simpl in H. apply andb_prop in H as [H1 H2].
    destruct b as [|c b]; [discriminate|]. cbn [length Nat.ltb Nat.leb].
    rewrite (IH _ H2), append_assoc. reflexivity.
Qed.

Lemma recv_loop_stop (chunks later : list string) (acc : string) :
  forallb (fun b => negb (empty b)) chunks = true ->
  recv_loop (chunks ++ EmptyString :: later) acc = recv_loop chunks acc.
Proof.
  revert acc; induction chunks as [|b chunks IH]; intros acc H; [reflexivity|].
  simpl in H. apply andb_prop in H as [H1 H2].
  destruct b as [|c b]; [discriminate|].
  cbn [app recv_loop length Nat.ltb Nat.leb]. apply IH. exact H2.
Qed.

Lemma no_nul_fold (l : list string) :
  no_nul (fold_right append EmptyString (map c_str l)) = true.
Proof.
  induction l as [|b l IH]; [reflexivity|]. simpl. unfold no_nul in *.
  rewrite all_chars_app, IH, andb_true_r. apply c_str_no_nul.
Qed.

(** X9: the response buffer is the concatenation, in order, of the pieces
    [recv] delivered before its first empty return, each cut at its first
    NUL; so the buffer never holds a NUL and whatever follows one inside a
    piece is lost. *)
Theorem recv_loop_collects :
  forall chunks later : list string,
    forallb (fun b => negb (empty b)) chunks = true ->
    recv_loop (chunks ++ EmptyString :: later) EmptyString
    = fold_right append EmptyString (map c_str chunks)
    /\ recv_loop chunks EmptyString
       = fold_right append EmptyString (map c_str chunks)
    /\ no_nul (recv_loop chunks EmptyString) = true.
Proof.
  intros chunks later H.
  rewrite (recv_loop_stop _ _ _ H), (recv_loop_fold _ _ H). simpl append.
  repeat split. apply no_nul_fold.
Qed.

Lemma recv_loop_collects_witness :
  recv_loop ["HTTP/1.0 200 OK"; String "a" (String NUL "lost"); "b"; EmptyString; "late"]
            EmptyString
  = "HTTP/1.0 200 OKab".
Proof.
  destruct (recv_loop_collects ["HTTP/1.0 200 OK"; String "a" (String NUL "lost"); "b"]
                               ["late"] eq_refl) as [E _].
  exact E.
Defined.

(* ------------------------------------------------------------------ *)
(** * Header and body of a response *)

Lemma starts_with_split (pat s : string) :
  starts_with pat s = true -> s = pat ++ drop (length pat) s.
Proof.
  revert s; induction pat as [|a pat IH]; intros s H; [reflexivity|].
  destruct s as [|b s]; [discriminate|]. simpl in H.
  apply andb_prop in H as [H1 H2]. apply Ascii.eqb_eq in H1. subst b.
  simpl. f_equal. now apply IH.
Qed.

Lemma find_split (pat s : string) (i : nat) :
  find pat s = Some i -> s = take i s ++ pat ++ drop (i + length pat) s.
Proof.
  revert i; induction s as [|c s IH]; intros i F.
  - simpl in F. destruct (starts_with pat EmptyString) eqn:E; [|discriminate].
    injection F as <-. now apply starts_with_split.
  - rewrite find_cons in F. destruct (starts_with pat (String c s)) eqn:E.
    + injection F as <-. now apply starts_with_split.
    + destruct (find pat s) as [j|] eqn:F'; [|discriminate]. injection F as <-.
      simpl. f_equal. now apply IH.
Qed.

(** X18: a response that holds a separator is its text before the first
    separator, the separator and the body [parseHTTPBody] returns: nothing
    is lost or added by the cut, and the body is four characters and the
    head shorter than the response. *)
Theorem parseHTTPBody_splits :
  forall (s : string) (i : nat),
    find separator s = Some i ->
    s = take i s ++ separator ++ parseHTTPBody s
    /\ length (parseHTTPBody s) + 4 + i = length s.
Proof.
  intros s i F. pose proof (find_split _ _ _ F) as E.
  destruct (parseHTTPBody_found _ _ F) as [B R].
  unfold parseHTTPBody. rewrite R. simpl snd.
  rewrite length_separator in E. split; [exact E|].
  rewrite E at 2. rewrite !length_append, length_take, length_separator. lia.
Qed.

Lemma parseHTTPBody_splits_witness :
  Scenario.reply_undated "page"
  = take 31 (Scenario.reply_undated "page") ++ separator
    ++ parseHTTPBody (Scenario.reply_undated "page").
Proof.
  destruct (parseHTTPBody_splits (Scenario.reply_undated "page") 31 eq_refl) as [E _].
  exact E.
Defined.

(* ------------------------------------------------------------------ *)
(** * More on the exchanges and on [handleCache] *)

(** X10: in a run in which the origin ends its reply,
    [sendIfModifiedSinceRequest] throws nothing, calls [connectToServer]
    once and [send] at most once, and leaves cache and clock alone.  It
    returns the empty string, without sending, when the connection fails,
    the empty string when [send] returns -1, and otherwise what the receive
    loop collected. *)
Theorem sendIfModifiedSinceRequest_effects :
  forall (P : Platform) (date : string) (header : httpHeader) (st : St),
    let fd := connect_result (hostName header) "80" in
    let buf := char_array 256 (ifModReq date header) in
    exists (response : string) (evs : list event),
      sendIfModifiedSinceRequest date header st
      = (Returns response, mkSt (cache st) (trace st ++ evs) (ticks st))
      /\ (evs = [EvConnect (hostName header) fd]
          \/ evs = [EvConnect (hostName header) fd; EvSend fd buf])
      /\ connects evs = 1
      /\ (fd = (-1)%Z -> response = EmptyString /\ evs = [EvConnect (hostName header) fd])
      /\ (fd <> (-1)%Z -> evs = [EvConnect (hostName header) fd; EvSend fd buf])
      /\ (send fd buf = (-1)%Z -> response = EmptyString)
      /\ (fd <> (-1)%Z -> send fd buf <> (-1)%Z ->
          response = recv_loop (recv fd buf) EmptyString).
Proof.
  intros P date header st fd buf.
  rewrite sendIfModifiedSinceRequest_run. unfold conditional_exchange.
  fold fd. fold buf.
  destruct (Z.eqb_spec fd (-1)) as [F|F].
  - eexists. eexists. split; [reflexivity|]. cbn [fst snd].
    repeat split; auto; congruence.
  - destruct (Z.eqb_spec (send fd buf) (-1)) as [S|S];
      eexists; eexists; (split; [reflexivity|]); cbn [fst snd];
      repeat split; auto; congruence.
Qed.

Section FrontEnd.

Context {P : Platform}.

Lemma revalidation_result (now : Z) (header fetched : httpHeader) :
  let r := revalidation now header fetched in
  hostName (fst r) = hostName fetched
  /\ filePath (fst r) = filePath fetched
  /\ ((fst r = fetched /\ cache_adds (snd r) = 0)
      \/ (lastModified (fst r) = EmptyString
          /\ empty (body (fst r)) = false
          /\ exists evs,
               snd r = (evs ++ [EvCacheAdd (hostName header ++ filePath header) (fst r)])%list
               /\ cache_adds evs = 0)).
Proof.
  cbv zeta. unfold revalidation.
  destruct (select_date now header) as [date|]; [|repeat split; left; now split].
  destruct (conditional_exchange_events date fetched (LRUCache_new 0)) as [_ [A _]].
  destruct (conditional_exchange date fetched) as [newResponse evs]. cbn [snd] in A.
  destruct (empty newResponse); [repeat split; left; now split|].
  destruct (empty (parseHTTPBody newResponse)) eqn:B;
    [repeat split; left; now split|].
  unfold main_header.
  destruct (parseHTTPresponse newResponse EmptyString EmptyString EmptyString)
    as [[d l] x] eqn:R.
  cbn [fst snd hostName filePath lastModified body].
  repeat split. right. repeat split.
  - change l with (snd (fst (d, l, x))). rewrite <- R. reflexivity.
  - exact B.
  - exists evs. now split.
Qed.

Lemma replay_adds_none (c : LRUCache) (evs : list event) :
  cache_adds evs = 0 -> replay_adds c evs = c.
Proof.
  revert c; induction evs as [|e evs IH]; intros c H; [reflexivity|].
  destruct e; simpl in *; try (apply IH; exact H). discriminate.
Qed.

Lemma fetch_hit (key : string) (c : LRUCache) (fetched : httpHeader) :
  lookup key (order c) = Some fetched ->
  fetch key c
  = (Returns fetched,
     mkLRUCache (capacity c) ((key, fetched) :: remove_key key (order c))).
Proof. unfold fetch. intros ->. reflexivity. Qed.

End FrontEnd.

(** X13: on a hit [handleCache] picks the date for the conditional request
    from the header it is called with: that header's [expires] when it is
    in the future, else its [lastModified] when it parses, else its
    [lastAccessTime] when it parses.  With no date picked it returns the
    cached entry after the [fetch] alone; with a date picked its next step
    is a connection to the cached entry's host and, when that succeeds, a
    [send] of the conditional request for that date and the cached entry's
    path. *)
Theorem handleCache_hit_selection :
  forall (P : Platform) (header fetched : httpHeader) (c1 : LRUCache) (st : St),
    let key := hostName header ++ filePath header in
    let now := time (ticks st) in
    let fd := connect_result (hostName fetched) "80" in
    fetch key (cache st) = (Returns fetched, c1) ->
    (select_date now header = None ->
     exists n, handleCache header st
               = (Returns fetched, mkSt c1 (trace st ++ [EvCacheFetch key]) n))
    /\ (forall date,
           select_date now header = Some date ->
           exists tail,
             new_events st (snd (handleCache header st))
             = EvCacheFetch key :: EvConnect (hostName fetched) fd :: tail
             /\ (fd <> (-1)%Z ->
                 exists tail',
                   tail = EvSend fd (char_array 256 (ifModReq date fetched)) :: tail')).
Proof.
  intros P header fetched c1 st key now fd F.
  destruct (handleCache_hit header fetched c1 st F) as [n H]. fold key in H.
  fold now in H. split.
  - intros S. exists n. rewrite H. unfold revalidation. rewrite S. reflexivity.
  - intros date S. rewrite H. cbn [snd]. unfold revalidation. rewrite S.
    unfold conditional_exchange. fold fd.
    set (buf := char_array 256 (ifModReq date fetched)).
    destruct (Z.eqb_spec fd (-1)) as [E|E].
    + eexists. split; [apply new_events_app; reflexivity|]. congruence.
    + destruct (send fd buf =? -1)%Z; cbn [empty fst snd].
      * eexists. split; [apply new_events_app; reflexivity|].
        intros _. eexists. reflexivity.
      * destruct (empty (recv_loop (recv fd buf) EmptyString));
          [|destruct (empty (parseHTTPBody (recv_loop (recv fd buf) EmptyString)))];
          cbn [snd]; eexists;
          (split; [apply new_events_app; reflexivity|]);
          intros _; eexists; reflexivity.
Qed.

Lemma handleCache_hit_selection_witness :
  let P := Reference.platform Scenario.origin_dated in
  exists tail,
    new_events Scenario.state_with_entry
               (snd (handleCache Scenario.dated_header Scenario.state_with_entry))
    = EvCacheFetch "a.example/x" :: EvConnect "a.example" 7 :: tail.
Proof.
  intros P.
  destruct (handleCache_hit_selection P Scenario.dated_header Scenario.cached_entry
                                      Scenario.cache_with_entry
                                      Scenario.state_with_entry eq_refl)
    as [_ H].
  destruct (H Scenario.date_2025 eq_refl) as [tail [E _]].
  exists tail. exact E.
Defined.

(** X14: what a hit returns is about the cached entry's host and path.
    It is either that entry itself, with the cache as [fetch] left it and
    no [add], or an entry with a non-empty body and always an empty
    [lastModified], which the last event adds under the key. *)
Theorem handleCache_hit_result :
  forall (P : Platform) (header fetched : httpHeader) (c1 : LRUCache) (st : St),
    let key := hostName header ++ filePath header in
    fetch key (cache st) = (Returns fetched, c1) ->
    exists (h : httpHeader) (st' : St),
      handleCache header st = (Returns h, st')
      /\ hostName h = hostName fetched
      /\ filePath h = filePath fetched
      /\ ((h = fetched /\ cache st' = c1 /\ cache_adds (new_events st st') = 0)
          \/ (lastModified h = EmptyString
              /\ empty (body h) = false
              /\ cache st' = add key h c1
              /\ exists evs, new_events st st' = (evs ++ [EvCacheAdd key h])%list
                             /\ cache_adds evs = 0)).
Proof.
  intros P header fetched c1 st key F.
  destruct (handleCache_hit header fetched c1 st F) as [n H]. fold key in H.
  destruct (revalidation_result (time (ticks st)) header fetched) as [Hh [Hp D]].
  fold key in D.
  eexists. eexists. split; [exact H|]. split; [exact Hh|]. split; [exact Hp|].
  cbn [cache].
  destruct D as [[E A]|[L [B [evs [E A]]]]].
  - left. split; [exact E|]. split; [now apply replay_adds_none|].
    erewrite new_events_app by reflexivity. exact A.
  - right. split; [exact L|]. split; [exact B|]. split.
    + rewrite E. unfold replay_adds. rewrite fold_left_app. cbn [fold_left].
      f_equal. now apply replay_adds_none.
    + exists (EvCacheFetch key :: evs). split; [|exact A].
      erewrite new_events_app by reflexivity. rewrite E. reflexivity.
Qed.

Lemma handleCache_hit_result_witness :
  let P := Reference.platform Scenario.origin_dated in
  exists h st',
    handleCache Scenario.dated_header Scenario.state_with_entry = (Returns h, st')
    /\ hostName h = "a.example" /\ filePath h = "/x".
Proof.
  intros P.
  destruct (handleCache_hit_result P Scenario.dated_header Scenario.cached_entry
                                   Scenario.cache_with_entry
                                   Scenario.state_with_entry eq_refl)
    as [h [st' [E [Hh [Hp _]]]]].
  exists h, st'. repeat split; assumption.
Defined.

(* ------------------------------------------------------------------ *)
(** * Keys and entries of the cache across calls *)

Section Coherence.

Implicit Types (l : list (string * httpHeader)) (c : LRUCache).

Lemma lookup_remove_key_same l key : lookup key (remove_key key l) = None.
Proof. apply lookup_None. rewrite remove_key_In. tauto. Qed.

Lemma lookup_remove_key_inv l key k e :
  lookup k (remove_key key l) = Some e -> lookup k l = Some e.
Proof.
  induction l as [|[k0 e0] l IH]; simpl; [discriminate|].
  destruct (String.eqb_spec k0 key) as [->|N].
  - intros H. destruct (String.eqb_spec key k) as [->|N'].
    + rewrite lookup_remove_key_same in H. discriminate.
    + now apply IH.
  - simpl. destruct (String.eqb k0 k); [trivial | exact IH].
Qed.

Lemma lookup_removelast l k e :
  lookup k (removelast l) = Some e -> lookup k l = Some e.
Proof.
  induction l as [|[k0 e0] [|p l] IH]; try discriminate.
  cbn [removelast lookup] in *.
  destruct (String.eqb k0 k); [trivial | exact IH].
Qed.

Lemma lookup_add_inv c key e k e' :
  lookup k (order (add key e c)) = Some e' ->
  (k = key /\ e' = e) \/ lookup k (order c) = Some e'.
Proof.
  unfold add. intros H.
  assert (H' : lookup k ((key, e) :: remove_key key (order c)) = Some e').
  { destruct (_ <? _)%nat; cbn [order] in H; [now apply lookup_removelast | exact H]. }
  simpl in H'. destruct (String.eqb_spec key k) as [->|N].
  - left. split; congruence.
  - right. now apply lookup_remove_key_inv in H'.
Qed.

Lemma add_lookup c key e :
  1 <= capacity c -> lookup key (order (add key e c)) = Some e.
Proof. intros C. now apply add_most_recent. Qed.

Lemma coherent_add c key e :
  coherent c -> hostName e ++ filePath e = key -> coherent (add key e c).
Proof.
  intros C E k e' L. apply lookup_add_inv in L as [[-> ->]|L]; [exact E | now apply C].
Qed.

Lemma coherent_fetch c key : coherent c -> coherent (snd (fetch key c)).
Proof.
  intros C. unfold fetch. destruct (lookup key (order c)) as [f|] eqn:L; [|exact C].
  intros k e'. cbn [snd order lookup].
  destruct (String.eqb_spec key k) as [<-|N].
  - intros [= <-]. now apply C.
  - intros H. apply C. now apply lookup_remove_key_inv in H.
Qed.

Lemma coherent_new (n : nat) : coherent (LRUCache_new n).
Proof. intros k e. discriminate. Qed.

End Coherence.

Section CacheAcrossCalls.

Context {P : Platform}.

Lemma handleCache_coherent (header : httpHeader) (st : St) :
  coherent (cache st) -> coherent (cache (snd (handleCache header st))).
Proof.
  intros C. set (key := hostName header ++ filePath header).
  destruct (lookup key (order (cache st))) as [fetched|] eqn:L.
  - destruct (handleCache_hit header fetched _ st (fetch_hit key _ _ L)) as [n H].
    rewrite H. cbn [snd cache].
    pose proof (coherent_fetch (cache st) key C) as C1.
    rewrite (fetch_hit key _ _ L) in C1. cbn [snd] in C1.
    destruct (revalidation_result (time (ticks st)) header fetched)
      as [Hh [Hp [[_ A]|[_ [_ [evs [E A]]]]]]].
    + now rewrite replay_adds_none.
    + rewrite E. unfold replay_adds. rewrite fold_left_app. cbn [fold_left].
      fold (replay_adds (mkLRUCache (capacity (cache st))
                                    ((key, fetched) :: remove_key key (order (cache st))))
                        evs).
      rewrite replay_adds_none by exact A.
      apply coherent_add; [exact C1|].
      rewrite Hh, Hp. now apply C.
  - assert (M : contains key (cache st) = false) by (unfold contains; now rewrite L).
    rewrite (handleCache_miss header st M). cbn [snd cache].
    now apply coherent_add.
Qed.

(** The cache after the client step is the cache [handleCache] left, or
    the cache before when [handleCache] was not reached. *)
Lemma main_client_cache (descriptor recBytes : Z) (receiveBuf : string) (st : St) :
  cache (snd (main_client descriptor recBytes receiveBuf st)) = cache st
  \/ exists header st0,
       cache st0 = cache st
       /\ cache (snd (main_client descriptor recBytes receiveBuf st))
          = cache (snd (handleCache header st0)).
Proof.
  destruct (recBytes =? -1)%Z eqn:R.
  { left. unfold main_client. rewrite R. reflexivity. }
  destruct (parseHTTPrequest (c_str receiveBuf) EmptyString EmptyString)
    as [[ok path] host] eqn:Q.
  pose proof (main_client_run descriptor recBytes receiveBuf st ok path host Q R) as E.
  cbv zeta in E. rewrite E. clear E.
  destruct (connect_result host "80" =? -1)%Z; [left; reflexivity|].
  destruct (empty (body _)); [left; reflexivity|].
  right.
  match goal with
  | |- context [bind (handleCache ?h) _ ?s0] =>
      exists h, s0; split; [reflexivity|]; unfold bind;
      destruct (handleCache_extends h s0) as [h' [c [evs [n H]]]]; rewrite H
  end.
  reflexivity.
Qed.

End CacheAcrossCalls.

(** X16: every entry is stored under the concatenation of its own host
    name and file path: this holds of the empty cache and is kept by
    [handleCache] and by the client step of [main], also when an entry is
    replaced after a revalidation. *)
Theorem cache_stays_coherent :
  forall (P : Platform) (header : httpHeader) (descriptor recBytes : Z)
         (receiveBuf : string) (st : St),
    coherent (cache st) ->
    coherent (cache (snd (handleCache header st)))
    /\ coherent (cache (snd (main_client descriptor recBytes receiveBuf st))).
Proof.
  intros P header descriptor recBytes receiveBuf st C. split.
  - now apply handleCache_coherent.
  - destruct (main_client_cache descriptor recBytes receiveBuf st)
      as [->|[h [st0 [E ->]]]]; [exact C|].
    apply handleCache_coherent. now rewrite E.
Qed.

Lemma cache_stays_coherent_witness :
  let P := Reference.platform Scenario.origin_dated in
  coherent (cache (snd (main_client 4 (Scenario.read_count Scenario.request_x)
                                    Scenario.request_x Scenario.state_empty))).
Proof.
  intros P.
  apply (cache_stays_coherent P Scenario.dated_header 4%Z
                              (Scenario.read_count Scenario.request_x)
                              Scenario.request_x Scenario.state_empty).
  intros k e H. discriminate H.
Defined.

(** X15: once a miss has stored a header under its key, a later call for
    a header with the same key hits, be it the same host and path or
    another pair that concatenates to the same text, and what it returns
    carries the host and path of the header stored first. *)
Theorem handleCache_miss_then_hit :
  forall (P : Platform) (header1 header2 : httpHeader) (st : St),
    let key := hostName header1 ++ filePath header1 in
    hostName header2 ++ filePath header2 = key ->
    contains key (cache st) = false ->
    1 <= capacity (cache st) ->
    let st1 := snd (handleCache header1 st) in
    fst (handleCache header1 st) = Returns header1
    /\ lookup key (order (cache st1)) = Some header1
    /\ exists (h : httpHeader) (st2 : St) (tail : list event),
         handleCache header2 st1 = (Returns h, st2)
         /\ hostName h = hostName header1
         /\ filePath h = filePath header1
         /\ new_events st1 st2 = EvCacheFetch key :: tail.
Proof.
  intros P header1 header2 st key K M C st1.
  pose proof (handleCache_miss header1 st M) as H1. fold key in H1.
  subst st1. rewrite H1. cbn [fst snd cache].
  split; [reflexivity|].
  assert (L : lookup key (order (add key header1 (cache st))) = Some header1)
    by now apply add_lookup.
  split; [exact L|].
  set (st1 := mkSt _ _ _).
  assert (F : fetch (hostName header2 ++ filePath header2) (cache st1)
              = (Returns header1,
                 mkLRUCache (capacity (cache st1))
                            ((key, header1) :: remove_key key (order (cache st1))))).
  { rewrite K. apply fetch_hit. exact L. }
  destruct (handleCache_hit header2 header1 _ st1 F) as [n H2].
  destruct (revalidation_result (time (ticks st1)) header2 header1) as [Hh [Hp _]].
  eexists. eexists. eexists. split; [exact H2|].
  split; [exact Hh|]. split; [exact Hp|].
  rewrite K. apply new_events_app. reflexivity.
Qed.

Lemma handleCache_miss_then_hit_witness :
  let P := Reference.platform Scenario.origin_dated in
  exists h st2,
    handleCache (mkHeader "a.exam" "ple/x" EmptyString EmptyString EmptyString "other")
                (snd (handleCache Scenario.undated_header Scenario.state_empty))
    = (Returns h, st2)
    /\ hostName h = "a.example" /\ filePath h = "/x".
Proof.
  intros P.
  destruct (handleCache_miss_then_hit
              P Scenario.undated_header
              (mkHeader "a.exam" "ple/x" EmptyString EmptyString EmptyString "other")
              Scenario.state_empty eq_refl eq_refl)
    as [_ [_ [h [st2 [tail [E [Hh [Hp _]]]]]]]].
  - simpl. lia.
  - exists h, st2. repeat split; assumption.
Defined.

(* ------------------------------------------------------------------ *)
(** * The client step of [main] *)

Section ClientStep.

Context {P : Platform}.

Lemma main_client_shape (descriptor recBytes : Z) (receiveBuf : string) (st : St) :
  exists (evs : list event) (c : LRUCache) (n : nat),
    main_client descriptor recBytes receiveBuf st
    = (Returns tt, mkSt c (trace st ++ evs ++ [EvClose descriptor]) n).
Proof.
  destruct (recBytes =? -1)%Z eqn:R.
  { exists [], (cache st), (ticks st). unfold main_client. rewrite R. reflexivity. }
  destruct (parseHTTPrequest (c_str receiveBuf) EmptyString EmptyString)
    as [[ok path] host] eqn:Q.
  pose proof (main_client_run descriptor recBytes receiveBuf st ok path host Q R) as E.
  cbv zeta in E. rewrite E. clear E.
  destruct (connect_result host "80" =? -1)%Z.
  { eexists [_]. eexists. eexists. reflexivity. }
  destruct (empty (body _)).
  { eexists [_; _; _]. eexists. eexists. reflexivity. }
  match goal with
  | |- context [bind (handleCache ?h) _ ?s0] =>
      unfold bind; destruct (handleCache_extends h s0) as [h' [c [evs [n H]]]];
      rewrite H
  end.
  exists ([EvConnect host (connect_result host "80");
           EvSend (connect_result host "80") (full_request path host);
           EvClose (connect_result host "80")]
            ++ evs ++ [EvSend descriptor (body h')])%list, c, n.
  unfold send_, close, emit, bind, ret. cbn [cache trace ticks].
  rewrite <- !app_assoc. reflexivity.
Qed.

End ClientStep.

(** X11: none of the exceptions the program throws or provides for
    escapes the client step (the [runtime_error] of a date that does not
    parse and of a cache miss and the [out_of_range] of [substr] are all
    caught), and on every one of its paths the last action is the [close]
    of the client's descriptor: a connection serves one request.  This is
    about the runs in which the library calls return; the source sets no
    timeout on [recv]. *)
Theorem main_client_closes :
  forall (P : Platform) (descriptor recBytes : Z) (receiveBuf : string) (st : St),
    exists (evs : list event) (st' : St),
      main_client descriptor recBytes receiveBuf st = (Returns tt, st')
      /\ new_events st st' = (evs ++ [EvClose descriptor])%list.
Proof.
  intros P descriptor recBytes receiveBuf st.
  destruct (main_client_shape descriptor recBytes receiveBuf st) as [evs [c [n H]]].
  exists evs. eexists. split; [exact H|]. apply new_events_app. reflexivity.
Qed.

(** X12: when [read] fails, when no connection to the origin is made, or
    when the origin's reply has no body, the client gets nothing before its
    descriptor is closed: the cache and the clock are as before, no cache
    operation took place, and the only [send] there can be is the request
    to the origin. *)
Theorem main_client_failure :
  forall (P : Platform) (descriptor recBytes : Z) (receiveBuf : string) (st : St)
         (ok : bool) (path host : string),
    parseHTTPrequest (c_str receiveBuf) EmptyString EmptyString = (ok, path, host) ->
    let fd := connect_result host "80" in
    let reply := recv_loop (recv fd (full_request path host)) EmptyString in
    recBytes = (-1)%Z \/ fd = (-1)%Z \/ parseHTTPBody reply = EmptyString ->
    let st' := snd (main_client descriptor recBytes receiveBuf st) in
    cache st' = cache st
    /\ ticks st' = ticks st
    /\ (new_events st st' = [EvClose descriptor]
        \/ new_events st st' = [EvConnect host fd; EvClose descriptor]
        \/ new_events st st'
           = [EvConnect host fd; EvSend fd (full_request path host); EvClose fd;
              EvClose descriptor]).
Proof.
  intros P descriptor recBytes receiveBuf st ok path host Q fd reply F st'.
  subst st'. destruct (Z.eqb_spec recBytes (-1)) as [R|R].
  { unfold main_client. subst recBytes. cbn [Z.eqb].
    repeat split. left. apply new_events_app. reflexivity. }
  apply Z.eqb_neq in R.
  pose proof (main_client_run descriptor recBytes receiveBuf st ok path host Q R) as E.
  cbv zeta in E. fold fd in E. fold reply in E. rewrite E. clear E.
  destruct (Z.eqb_spec fd (-1)) as [C|C].
  { repeat split. right. left. apply new_events_app. reflexivity. }
  assert (B : empty (body (main_header host path reply)) = true).
  { destruct F as [F|[F|F]]; [apply Z.eqb_neq in R; congruence | congruence |].
    unfold main_header.
    destruct (parseHTTPresponse reply EmptyString EmptyString EmptyString) as [[d l] x].
    cbn [body]. now rewrite F. }
  rewrite B. repeat split. right. right. apply new_events_app. reflexivity.
Qed.

Lemma main_client_failure_witness :
  let P := Reference.platform Scenario.origin_dated in
  cache (snd (main_client 4 (Scenario.read_count "GET /x HTTP/1.0")
                          (Scenario.get_request "GET" "/x" "b.example")
                          Scenario.state_with_entry))
  = Scenario.cache_with_entry.
Proof.
  intros P.
  destruct (main_client_failure P 4%Z (Scenario.read_count "GET /x HTTP/1.0")
                                (Scenario.get_request "GET" "/x" "b.example")
                                Scenario.state_with_entry true "/x" "b.example")
    as [C _].
  - vm_compute. reflexivity.
  - right. left. vm_compute. reflexivity.
  - exact C.
Defined.

(** X19: a first request.  When the request is read, the origin is
    reached, its reply has a body and the key is not in the cache, the
    step sends the full request, closes the origin socket, looks the key
    up, adds the header formed from the reply under host followed by path,
    sends the reply's body to the client and closes its descriptor; the
    cache is the old one with that one [add]. *)
Theorem main_client_first_request :
  forall (P : Platform) (descriptor recBytes : Z) (receiveBuf : string) (st : St)
         (ok : bool) (path host : string),
    parseHTTPrequest (c_str receiveBuf) EmptyString EmptyString = (ok, path, host) ->
    let fd := connect_result host "80" in
    let reply := recv_loop (recv fd (full_request path host)) EmptyString in
    let header := main_header host path reply in
    recBytes <> (-1)%Z -> fd <> (-1)%Z ->
    parseHTTPBody reply <> EmptyString ->
    contains (host ++ path) (cache st) = false ->
    main_client descriptor recBytes receiveBuf st
    = (Returns tt,
       mkSt (add (host ++ path) header (cache st))
            (trace st ++ [EvConnect host fd; EvSend fd (full_request path host);
                          EvClose fd; EvCacheFetch (host ++ path);
                          EvCacheAdd (host ++ path) header;
                          EvSend descriptor (parseHTTPBody reply);
                          EvClose descriptor])
            (ticks st)).
Proof.
  intros P descriptor recBytes receiveBuf st ok path host Q fd reply header R C B M.
  apply Z.eqb_neq in R, C.
  pose proof (main_client_run descriptor recBytes receiveBuf st ok path host Q R) as E.
  cbv zeta in E. fold fd in E. fold reply in E. fold header in E.
  rewrite E, C. clear E.
  assert (H : hostName header = host /\ filePath header = path
              /\ body header = parseHTTPBody reply).
  { subst header. unfold main_header.
    destruct (parseHTTPresponse reply EmptyString EmptyString EmptyString) as [[d l] x].
    repeat split. }
  destruct H as [Hh [Hp Hb]]. rewrite Hb.
  destruct (empty (parseHTTPBody reply)) eqn:Em;
    [apply empty_true in Em; contradiction|].
  unfold bind. rewrite handleCache_miss by (rewrite Hh, Hp; exact M).
  rewrite Hh, Hp, Hb.
  unfold send_, close, emit, bind, ret. cbn [cache trace ticks].
  rewrite <- !app_assoc. reflexivity.
Qed.

Lemma main_client_first_request_witness :
  let P := Reference.platform Scenario.origin_dated in
  cache (snd (main_client 4 (Scenario.read_count Scenario.request_x)
                          Scenario.request_x Scenario.state_empty))
  = add "a.example/x" Scenario.dated_header (LRUCache_new 10).
Proof.
  intros P.
  rewrite (main_client_first_request P 4%Z (Scenario.read_count Scenario.request_x)
                                     Scenario.request_x Scenario.state_empty
                                     true "/x" "a.example").
  - vm_compute. reflexivity.
  - vm_compute. reflexivity.
  - vm_compute. discriminate.
  - vm_compute. discriminate.
  - vm_compute. discriminate.
  - vm_compute. reflexivity.
Defined.

Section ConditionalDate.

Context {P : Platform}.



End ConditionalDate.



(* ------------------------------------------------------------------ *)
(** * The descriptor sets of the readiness loop *)

Lemma FD_ISSET_In (fd : Z) (set : fd_set) : FD_ISSET fd set = true <-> In fd set.
Proof.
  unfold FD_ISSET. rewrite existsb_exists. split.
  - intros [x [I E]]. apply Z.eqb_eq in E. now subst.
  - intros I. exists fd. split; [exact I | apply Z.eqb_refl].
Qed.

Lemma FD_SET_In (fd x : Z) (set : fd_set) :
  In x (FD_SET fd set) <-> x = fd \/ In x set.
Proof.
  unfold FD_SET. destruct (FD_ISSET fd set) eqn:E.
  - apply FD_ISSET_In in E. split; [tauto|]. intros [->|I]; assumption.
  - simpl. split; intros [H|H]; auto.
Qed.

Lemma FD_CLR_In (fd x : Z) (set : fd_set) :
  In x (FD_CLR fd set) <-> In x set /\ x <> fd.
Proof.
  unfold FD_CLR. rewrite filter_In, negb_true_iff, Z.eqb_neq.
  split; intros [H1 H2]; split; auto.
Qed.

(** X17: one iteration of the descriptor loop, with all descriptors
    below [FD_SETSIZE]: if it runs to its end, every watched descriptor is
    still in range and at or below [MaxFd], which never decreases.  A
    descriptor [select] did not report is skipped with no effect; a ready
    listening socket adds the accepted descriptor to the watched set; a
    ready client descriptor is served and is no longer watched afterwards,
    while all others, the listening socket among them, stay. *)
Theorem main_descriptor_keeps_watch :
  forall (P : Platform) (serverSocketFd descriptor : Z) (readFds : fd_set)
         (clientSocketFd recBytes : Z) (receiveBuf : string)
         (ls : loop_state) (st : St),
    watched ls ->
    (forall fd, In fd (masterReadFds ls) -> in_fd_range fd) ->
    clientSocketFd = (-1)%Z \/ in_fd_range clientSocketFd ->
    exists (ls' : loop_state) (st' : St),
      main_descriptor serverSocketFd descriptor readFds clientSocketFd
                      recBytes receiveBuf ls st
      = (Returns ls', st')
      /\ watched ls'
      /\ (forall fd, In fd (masterReadFds ls') -> in_fd_range fd)
      /\ (MaxFd ls <= MaxFd ls')%Z
      /\ (FD_ISSET descriptor readFds = false -> ls' = ls /\ st' = st)
      /\ (FD_ISSET descriptor readFds = true -> descriptor = serverSocketFd ->
          st' = st
          /\ forall fd, In fd (masterReadFds ls')
                        <-> In fd (masterReadFds ls)
                            \/ (fd = clientSocketFd /\ clientSocketFd <> (-1)%Z))
      /\ (FD_ISSET descriptor readFds = true -> descriptor <> serverSocketFd ->
          MaxFd ls' = MaxFd ls
          /\ forall fd, In fd (masterReadFds ls')
                        <-> In fd (masterReadFds ls) /\ fd <> descriptor).
Proof.
  intros P serverSocketFd descriptor readFds clientSocketFd recBytes receiveBuf
         ls st W G A.
  unfold main_descriptor.
  destruct (FD_ISSET descriptor readFds) eqn:R; cbn [negb].
  2:{ exists ls, st. repeat split; auto; try lia; try discriminate; apply G; assumption. }
  destruct (Z.eqb_spec descriptor serverSocketFd) as [S|S].
  - destruct (Z.eqb_spec clientSocketFd (-1)) as [N|N].
    + exists ls, st.
      repeat split; auto; try lia; try discriminate; try contradiction; try tauto;
        apply G; assumption.
    + destruct A as [A|A]; [contradiction|].
      eexists. exists st. split; [reflexivity|]. cbn [MaxFd masterReadFds].
      split; [|split; [|split; [|split; [discriminate|split; [|contradiction]]]]].
      * intros fd I. cbn [MaxFd masterReadFds] in *. apply FD_SET_In in I.
        destruct (Z.ltb_spec (MaxFd ls) clientSocketFd);
          destruct I as [->|I]; try lia; apply W in I; lia.
      * intros fd I. apply FD_SET_In in I. destruct I as [->|I]; [exact A | now apply G].
      * destruct (Z.ltb_spec (MaxFd ls) clientSocketFd); lia.
      * intros _ _. split; [reflexivity|]. intros fd. rewrite FD_SET_In.
        split; [intros [->|I]; auto | intros [I|[-> _]]; auto].
  - destruct (main_client_shape descriptor recBytes receiveBuf st) as [evs [c [n H]]].
    unfold bind. rewrite H. eexists. eexists. split; [reflexivity|].
    cbn [MaxFd masterReadFds].
    split; [|split; [|split; [lia|split; [discriminate|split; [contradiction|]]]]].
    + intros fd I. cbn [MaxFd masterReadFds] in *. apply FD_CLR_In in I as [I _].
      now apply W.
    + intros fd I. apply FD_CLR_In in I as [I _]. now apply G.
    + intros _ _. split; [reflexivity|]. intros fd. apply FD_CLR_In.
Qed.

Lemma main_descriptor_keeps_watch_witness :
  let P := Reference.platform Scenario.origin_dated in
  exists ls' st',
    main_descriptor 3 3 [3%Z] 4 0 EmptyString (mkLoop [3%Z] 3) Scenario.state_empty
    = (Returns ls', st')
    /\ watched ls' /\ (3 <= MaxFd ls')%Z.
Proof.
  intros P.
  destruct (main_descriptor_keeps_watch P 3%Z 3%Z [3%Z] 4%Z 0%Z EmptyString
                                        (mkLoop [3%Z] 3) Scenario.state_empty)
    as [ls' [st' [E [W [_ [M _]]]]]].
  - intros fd [<-|[]]. simpl. lia.
  - intros fd [<-|[]]. unfold in_fd_range, FD_SETSIZE. lia.
  - right. unfold in_fd_range, FD_SETSIZE. lia.
  - exists ls', st'. repeat split; assumption.
Defined.

(* ------------------------------------------------------------------ *)
(** * What the client is sent on a hit *)

Section HitReply.

Context {P : Platform}.

Lemma revalidation_body (now : Z) (header fetched : httpHeader) :
  let r := revalidation now header fetched in
  fst r = fetched
  \/ exists date,
       select_date now header = Some date
       /\ body (fst r) = parseHTTPBody (fst (conditional_exchange date fetched))
       /\ empty (body (fst r)) = false.
Proof.
  cbv zeta. unfold revalidation.
  destruct (select_date now header) as [date|]; [|now left].
  destruct (conditional_exchange date fetched) as [newResponse evs] eqn:X.
  destruct (empty newResponse); [now left|].
  destruct (empty (parseHTTPBody newResponse)) eqn:B; [now left|].
  right. exists date. rewrite X. cbn [fst]. unfold main_header.
  destruct (parseHTTPresponse newResponse EmptyString EmptyString EmptyString)
    as [[d l] x].
  cbn [body]. repeat split. exact B.
Qed.

End HitReply.

(** X21: on a hit the body of the unconditional reply is not what the
    client gets.  When the request is read, the origin is reached, its
    reply has a body and the key is in the cache, the client is sent the
    body of the header [handleCache] returns, which is the cached entry or
    carries the body of the reply to the conditional request for the date
    selected; after that its descriptor is closed. *)
Theorem main_client_hit_reply :
  forall (P : Platform) (descriptor recBytes : Z) (receiveBuf : string) (st : St)
         (ok : bool) (path host : string) (fetched : httpHeader),
    parseHTTPrequest (c_str receiveBuf) EmptyString EmptyString = (ok, path, host) ->
    let fd := connect_result host "80" in
    let reply := recv_loop (recv fd (full_request path host)) EmptyString in
    let header := main_header host path reply in
    recBytes <> (-1)%Z -> fd <> (-1)%Z ->
    parseHTTPBody reply <> EmptyString ->
    lookup (host ++ path) (order (cache st)) = Some fetched ->
    exists (h : httpHeader) (evs : list event),
      new_events st (snd (main_client descriptor recBytes receiveBuf st))
      = ([EvConnect host fd; EvSend fd (full_request path host); EvClose fd;
          EvCacheFetch (host ++ path)]
           ++ evs ++ [EvSend descriptor (body h); EvClose descriptor])%list
      /\ (h = fetched
          \/ exists date,
               select_date (time (ticks st)) header = Some date
               /\ body h = parseHTTPBody (fst (conditional_exchange date fetched))
               /\ empty (body h) = false).
Proof.
  intros P descriptor recBytes receiveBuf st ok path host fetched Q fd reply header
         R C B L.
  apply Z.eqb_neq in R, C.
  pose proof (main_client_run descriptor recBytes receiveBuf st ok path host Q R) as E.
  cbv zeta in E. fold fd in E. fold reply in E. fold header in E.
  rewrite E, C. clear E.
  assert (H : hostName header = host /\ filePath header = path
              /\ body header = parseHTTPBody reply).
  { subst header. unfold main_header.
    destruct (parseHTTPresponse reply EmptyString EmptyString EmptyString) as [[d l] x].
    repeat split. }
  destruct H as [Hh [Hp Hb]]. rewrite Hb.
  destruct (empty (parseHTTPBody reply)) eqn:Em;
    [apply empty_true in Em; contradiction|].
  set (st0 := mkSt (cache st)
                   (trace st ++ [EvConnect host fd; EvSend fd (full_request path host);
                                 EvClose fd]) (ticks st)).
  assert (F : fetch (hostName header ++ filePath header) (cache st0)
              = (Returns fetched,
                 mkLRUCache (capacity (cache st))
                            ((host ++ path, fetched)
                               :: remove_key (host ++ path) (order (cache st))))).
  { rewrite Hh, Hp. apply fetch_hit. exact L. }
  destruct (handleCache_hit header fetched _ st0 F) as [n H].
  unfold bind. rewrite H. rewrite Hh, Hp. cbn [ticks st0].
  exists (fst (revalidation (time (ticks st)) header fetched)),
         (snd (revalidation (time (ticks st)) header fetched)).
  split.
  - apply new_events_app. unfold send_, close, emit, bind, ret.
    cbn [snd trace cache ticks st0].
    rewrite <- !app_assoc. reflexivity.
  - apply revalidation_body.
Qed.

Lemma main_client_hit_reply_witness :
  let P := Reference.platform Scenario.origin_dated in
  exists h evs,
    new_events Scenario.state_with_entry
               (snd (main_client 4 (Scenario.read_count Scenario.request_x)
                                 Scenario.request_x Scenario.state_with_entry))
    = ([EvConnect "a.example" 7; EvSend 7 (full_request "/x" "a.example"); EvClose 7;
        EvCacheFetch "a.example/x"]
         ++ evs ++ [EvSend 4 (body h); EvClose 4])%list.
Proof.
  intros P.
  destruct (main_client_hit_reply P 4%Z (Scenario.read_count Scenario.request_x)
                                  Scenario.request_x Scenario.state_with_entry
                                  true "/x" "a.example" Scenario.cached_entry)
    as [h [evs [E _]]].
  - vm_compute. reflexivity.
  - vm_compute. discriminate.
  - vm_compute. discriminate.
  - vm_compute. discriminate.
  - vm_compute. reflexivity.
  - exists h, evs. exact E.
Defined.

Lemma sendIfModifiedSinceRequest_effects_witness :
  let P := Reference.platform Scenario.origin_dated in
  fst (sendIfModifiedSinceRequest
         Scenario.date_2025
         (mkHeader "b.example" "/x" EmptyString EmptyString EmptyString EmptyString)
         Scenario.state_empty)
  = Returns EmptyString.
Proof.
  intros P.
  destruct (sendIfModifiedSinceRequest_effects
              P Scenario.date_2025
              (mkHeader "b.example" "/x" EmptyString EmptyString EmptyString EmptyString)
              Scenario.state_empty)
    as [response [evs [E [_ [_ [F _]]]]]].
  rewrite E. destruct (F eq_refl) as [-> _]. reflexivity.
Defined.
